(** * security_monkey.watcher: the Watcher reconciliation core

    A shallow embedding of [security_monkey/watcher.py]: the [ChangeItem]
    record and its [from_items] constructor, the exception map, the three
    diff passes [find_deleted], [find_new], [find_modified], the cycle
    queries [is_changed] and [issues_found], [save], and the rate-limit
    retry loop [wrap_aws_rate_limited_call].

    Python dictionaries are [gmap]s, Python sets are [gset]s and the
    iteration order of a set is the order of [elements]; statements about
    bucket contents are therefore made up to permutation, or as membership.
    Python integers are [Z]. *)

From stdpp Require Import base option list strings gmap sets fin_maps sorting.
From Stdlib Require Import ZArith Ascii.

Open Scope string_scope.
Open Scope Z_scope.
Open Scope list_scope.

(** ** Data model *)

(** A location is the tuple [(index, account, region, name)]; the keys of an
    exception map are such tuples or their prefixes [item_location[0:k]]. *)
Abbreviation Location := (list string).

(** An audit issue as far as this module reads it: [issue.justified]. *)
Record Issue : Type := mkIssue {
  issue_text : string;
  justified : bool
}.

(** What a call of the wrapped AWS function can raise: boto's
    [BotoServerError] with its [error_code], botocore's [ClientError] with
    its [response["Error"]["Code"]], or anything else. *)
Inductive aws_exception : Type :=
  | BotoServerError (error_code : string)
  | ClientError (code : string)
  | OtherException (message : string).

(** The outcome of one call [awsfunc] with the caller's arguments. *)
Inductive outcome (A : Type) : Type :=
  | Returns (retval : A)
  | Raises (e : aws_exception).
Arguments Returns {A} retval.
Arguments Raises {A} e.

(** What the retry loop does to the outside world: [time.sleep(seconds)]
    and the call of the wrapped function at a given attempt number. *)
Inductive event : Type :=
  | Sleep (seconds : Z)
  | Call (attempt : Z).

(** Configurations are nested dictionaries produced by the technology
    watchers.  This module compares them through [common.utils.sub_dict]
    and edits deep copies with [dpath.util.delete]; neither is defined
    here, so a configuration type comes with them as its interface.
    [empty_config] is the dictionary [{}], equality is Python's [==], and
    [dpath_delete cfg path] is [None] when the call raises [PathNotFound]
    and the edited configuration otherwise. *)
Class ConfigOps (Config : Type) : Type := {
  config_eq_dec :: EqDecision Config;
  empty_config : Config;
  sub_dict : Config → Config;
  dpath_delete : Config → string → option Config
}.

(** [s.lower()] maps a string character by character.  Which characters
    it folds depends on the kind of string (8-bit or text) and, for an
    8-bit string, on the locale; the mapping of one character belongs to
    Python, not to this module, and is a parameter. *)
Class Lowercase : Type := {
  lower_char : ascii → ascii
}.

Section Watcher.

Context {Config : Type} `{!ConfigOps Config}.

(** [class ChangeItem]: the fields set in [__init__]. *)
Record ChangeItem : Type := mkChangeItem {
  index : string;
  region : string;
  account : string;
  name : string;
  old_config : Config;
  new_config : Config;
  active : bool;
  audit_issues : list Issue;
  confirmed_new_issues : list Issue;
  confirmed_fixed_issues : list Issue;
  confirmed_existing_issues : list Issue;
  found_new_issue : bool
}.

(** [ChangeItem.__init__] with its keyword defaults resolved by the caller:
    the four issue-reconciliation fields always start empty. *)
Definition ChangeItem_init (index region account name : string)
    (old_config new_config : Config) (active : bool)
    (audit_issues : list Issue) : ChangeItem :=
  {| index := index; region := region; account := account; name := name;
     old_config := old_config; new_config := new_config; active := active;
     audit_issues := audit_issues;
     confirmed_new_issues := []; confirmed_fixed_issues := [];
     confirmed_existing_issues := []; found_new_issue := false |}.

(** The [config] property. *)
Definition config (self : ChangeItem) : Config := new_config self.

(** [ChangeItem.location]. *)
Definition location (self : ChangeItem) : Location :=
  [index self; account self; region self; name self].

(** [ChangeItem.from_items].  An absent argument is Python's [None]; an item
    object is always truthy (the class defines neither [__len__] nor
    [__nonzero__]).  The bare [return] of the first branch is [None]. *)
Definition from_items (old_item new_item : option ChangeItem)
    : option ChangeItem :=
  let old_config :=
    match old_item with Some o => config o | None => empty_config end in
  let new_config :=
    match new_item with Some n => config n | None => empty_config end in
  let active := match new_item with Some _ => true | None => false end in
  let build (valid_item : ChangeItem) :=
    Some (ChangeItem_init (index valid_item) (region valid_item)
            (account valid_item) (name valid_item)
            old_config new_config active (audit_issues valid_item)) in
  match new_item, old_item with
  | None, None => None
  | Some n, _ => build n
  | None, Some o => build o
  end.

(** ** The datastore collaborator *)

(** One call of [datastore.store(index, region, account, name, active,
    new_config, new_issues=...)]. *)
Record StoreCall : Type := mkStoreCall {
  st_index : string;
  st_region : string;
  st_account : string;
  st_name : string;
  st_active : bool;
  st_config : Config;
  st_new_issues : list Issue
}.

(** A row of [get_all_ctype_filtered]: the database item ([item.region],
    [item.account.name], [item.name]) and its revision's [config]. *)
Record StoredItem : Type := mkStoredItem {
  item_region : string;
  item_account_name : string;
  item_name : string;
  revision_config : Config
}.

(** Modelled from the spec: the Datastore collaborator of
    [security_monkey.datastore], which is not part of this module.  It
    answers [get_all_ctype_filtered tech account include_inactive] with the
    last recorded revisions and accepts [store] calls, which are logged in
    call order. *)
Record Datastore : Type := mkDatastore {
  get_all_ctype_filtered : string → string → bool → list StoredItem;
  stored : list StoreCall
}.

Definition store (ds : Datastore) (c : StoreCall) : Datastore :=
  {| get_all_ctype_filtered := get_all_ctype_filtered ds;
     stored := stored ds ++ [c] |}.

(** The arguments [ChangeItem.save] passes to [datastore.store]. *)
Definition store_args (self : ChangeItem) : StoreCall :=
  mkStoreCall (index self) (region self) (account self) (name self)
    (active self) (new_config self) (audit_issues self).

(** [ChangeItem.save]. *)
Definition ChangeItem_save (self : ChangeItem) (ds : Datastore) : Datastore :=
  store ds (store_args self).

(** ** The watcher object *)

(** The attributes of [Watcher] that the modelled methods read or write.
    [w_index] is the class attribute [index]. *)
Record Watcher : Type := mkWatcher {
  w_index : string;
  accounts : list string;
  datastore : Datastore;
  created_items : list ChangeItem;
  deleted_items : list ChangeItem;
  changed_items : list ChangeItem;
  ephemeral_items : list ChangeItem;
  rate_limit_delay : Z;
  honor_ephemerals : bool;
  ephemeral_paths : list string
}.

(** [Watcher.__init__] once the account list is resolved: empty buckets, no
    delay, ephemerals not honoured. *)
Definition Watcher_init (idx : string) (accts : list string)
    (ds : Datastore) : Watcher :=
  {| w_index := idx; accounts := accts; datastore := ds;
     created_items := []; deleted_items := []; changed_items := [];
     ephemeral_items := []; rate_limit_delay := 0;
     honor_ephemerals := false; ephemeral_paths := [] |}.

Definition set_created_items (self : Watcher) (l : list ChangeItem) :=
  mkWatcher (w_index self) (accounts self) (datastore self)
    l (deleted_items self) (changed_items self) (ephemeral_items self)
    (rate_limit_delay self) (honor_ephemerals self) (ephemeral_paths self).

Definition set_deleted_items (self : Watcher) (l : list ChangeItem) :=
  mkWatcher (w_index self) (accounts self) (datastore self)
    (created_items self) l (changed_items self) (ephemeral_items self)
    (rate_limit_delay self) (honor_ephemerals self) (ephemeral_paths self).

Definition set_changed_items (self : Watcher) (l : list ChangeItem) :=
  mkWatcher (w_index self) (accounts self) (datastore self)
    (created_items self) (deleted_items self) l (ephemeral_items self)
    (rate_limit_delay self) (honor_ephemerals self) (ephemeral_paths self).

Definition set_ephemeral_items (self : Watcher) (l : list ChangeItem) :=
  mkWatcher (w_index self) (accounts self) (datastore self)
    (created_items self) (deleted_items self) (changed_items self) l
    (rate_limit_delay self) (honor_ephemerals self) (ephemeral_paths self).

Definition set_rate_limit_delay (self : Watcher) (d : Z) :=
  mkWatcher (w_index self) (accounts self) (datastore self)
    (created_items self) (deleted_items self) (changed_items self)
    (ephemeral_items self) d (honor_ephemerals self) (ephemeral_paths self).

Definition set_datastore (self : Watcher) (ds : Datastore) :=
  mkWatcher (w_index self) (accounts self) ds
    (created_items self) (deleted_items self) (changed_items self)
    (ephemeral_items self) (rate_limit_delay self) (honor_ephemerals self)
    (ephemeral_paths self).

(** [bucket.append(r)] for a result [r] of [from_items].  In [find_modified]
    the append is guarded by [if r:]; in [find_deleted] and [find_new] an
    item is always passed, so [r] is a record there ([from_items_old],
    [from_items_new] below). *)
Definition bucket_append (bucket : list ChangeItem) (r : option ChangeItem)
    : list ChangeItem :=
  match r with Some ci => bucket ++ [ci] | None => bucket end.

(** [Watcher.ephemerals_skipped]. *)
Definition ephemerals_skipped (self : Watcher) : bool := honor_ephemerals self.

(** ** The exception map *)

(** [key in exception_map]. *)
Definition dict_contains {V} (key : Location) (d : gmap Location V) : bool :=
  bool_decide (is_Some (d !! key)).

(** [Watcher.slurp_exception]: the entry is written, overwriting any
    previous one at the same location. *)
Definition slurp_exception (loc : Location) (exception : string)
    (exception_map : gmap Location string) : gmap Location string :=
  <[loc := exception]> exception_map.

(** [Watcher.locationInExceptionMap]; [item_location[0:k]] is [take k]. *)
Definition locationInExceptionMap (item_location : Location)
    (exception_map : gmap Location string) : bool :=
  if dict_contains item_location exception_map then true
  else if dict_contains (take 3 item_location) exception_map then true
  else if dict_contains (take 2 item_location) exception_map then true
  else if dict_contains (take 1 item_location) exception_map then true
  else false.

(** ** The three diff passes *)

(** [{item.location(): item for item in items}]: a later item overwrites an
    earlier one at the same location. *)
Definition dict_by_location (items : list ChangeItem)
    : gmap Location ChangeItem :=
  foldl (λ d item, <[location item := item]> d) ∅ items.

(** The comprehension [[l for l in item_locations if not
    self.locationInExceptionMap(l, exception_map)]]. *)
Definition not_excepted (exception_map : gmap Location string)
    (item_locations : list Location) : list Location :=
  filter (λ l, locationInExceptionMap l exception_map = false) item_locations.

(** [[d[l] for l in item_locations]]; every [l] is a key of [d] at the two
    places this is used. *)
Definition items_at (d : gmap Location ChangeItem)
    (item_locations : list Location) : list ChangeItem :=
  omap (λ l, d !! l) item_locations.

(** [Watcher.find_deleted]. *)
Definition find_deleted (self : Watcher) (previous current : list ChangeItem)
    (exception_map : gmap Location string) : Watcher :=
  let prev_map := dict_by_location previous in
  let curr_map := dict_by_location current in
  let item_locations := elements (dom prev_map ∖ dom curr_map) in
  let item_locations := not_excepted exception_map item_locations in
  let list_deleted_items := items_at prev_map item_locations in
  foldl (λ self item,
           let deleted_change_item := from_items (Some item) None in
           set_deleted_items self
             (bucket_append (deleted_items self) deleted_change_item))
        self list_deleted_items.

(** [Watcher.find_new]. *)
Definition find_new (self : Watcher) (previous current : list ChangeItem)
    : Watcher :=
  let prev_map := dict_by_location previous in
  let curr_map := dict_by_location current in
  let item_locations := elements (dom curr_map ∖ dom prev_map) in
  let list_new_items := items_at curr_map item_locations in
  foldl (λ self item,
           let new_change_item := from_items None (Some item) in
           set_created_items self
             (bucket_append (created_items self) new_change_item))
        self list_new_items.

(** [try: dpath.util.delete(cfg, path, separator='$')] followed by
    [except PathNotFound: pass]. *)
Definition try_delete (cfg : Config) (path : string) : Config :=
  match dpath_delete cfg path with Some cfg' => cfg' | None => cfg end.

(** The nested loop [for path in self.ephemeral_paths: for cfg in
    [dur_prev_item.config, dur_curr_item.config]] on the two deep copies. *)
Definition filter_ephemeral_paths (paths : list string)
    (cfgs : Config * Config) : Config * Config :=
  foldl (λ cfgs path,
           let cfgs := (try_delete cfgs.1 path, cfgs.2) in
           (cfgs.1, try_delete cfgs.2 path))
        cfgs paths.

(** A deep copy of [item] whose [config] has been edited to [cfg]. *)
Definition with_config (item : ChangeItem) (cfg : Config) : ChangeItem :=
  mkChangeItem (index item) (region item) (account item) (name item)
    (old_config item) cfg (active item) (audit_issues item)
    (confirmed_new_issues item) (confirmed_fixed_issues item)
    (confirmed_existing_issues item) (found_new_issue item).

(** [from_items(old, new)] when [sub_dict(old.config) != sub_dict(new.config)],
    else [None]. *)
Definition change_item_if_differs (old_item new_item : ChangeItem)
    : option ChangeItem :=
  if decide (sub_dict (config old_item) = sub_dict (config new_item))
  then None
  else from_items (Some old_item) (Some new_item).

(** The body of the loop [for location in item_locations] of
    [find_modified]. *)
Definition find_modified_body (prev_map curr_map : gmap Location ChangeItem)
    (self : Watcher) (loc : Location) : Watcher :=
  match prev_map !! loc, curr_map !! loc with
  | Some prev_item, Some curr_item =>
    let eph_change_item := change_item_if_differs prev_item curr_item in
    if ephemerals_skipped self then
      let cfgs := filter_ephemeral_paths (ephemeral_paths self)
                    (config prev_item, config curr_item) in
      let dur_prev_item := with_config prev_item cfgs.1 in
      let dur_curr_item := with_config curr_item cfgs.2 in
      let dur_change_item :=
        change_item_if_differs dur_prev_item dur_curr_item in
      let self := set_ephemeral_items self
                    (bucket_append (ephemeral_items self) eph_change_item) in
      set_changed_items self
        (bucket_append (changed_items self) dur_change_item)
    else
      set_changed_items self
        (bucket_append (changed_items self) eph_change_item)
  | _, _ => self
  end.

(** [Watcher.find_modified]. *)
Definition find_modified (self : Watcher) (previous current : list ChangeItem)
    (exception_map : gmap Location string) : Watcher :=
  let prev_map := dict_by_location previous in
  let curr_map := dict_by_location current in
  let item_locations := elements (dom curr_map ∩ dom prev_map) in
  let item_locations := not_excepted exception_map item_locations in
  foldl (find_modified_body prev_map curr_map) self item_locations.

(** [Watcher.read_previous_items]. *)
Definition read_previous_items (self : Watcher) : list ChangeItem :=
  foldl (λ prev_list account,
           let prev := get_all_ctype_filtered (datastore self)
                         (w_index self) account false in
           foldl (λ prev_list item,
                    let new_item :=
                      ChangeItem_init (w_index self) (item_region item)
                        (item_account_name item) (item_name item)
                        empty_config (revision_config item) false [] in
                    prev_list ++ [new_item])
                 prev_list prev)
        [] (accounts self).

(** [Watcher.find_changes]. *)
Definition find_changes (self : Watcher) (current : list ChangeItem)
    (exception_map : gmap Location string) : Watcher :=
  let prev := read_previous_items self in
  let self := find_deleted self prev current exception_map in
  let self := find_new self prev current in
  find_modified self prev current exception_map.

(** The three passes in the order of [find_changes], on an explicit
    previous snapshot. *)
Definition diff_passes (self : Watcher) (previous current : list ChangeItem)
    (exception_map : gmap Location string) : Watcher :=
  find_modified
    (find_new (find_deleted self previous current exception_map)
       previous current)
    previous current exception_map.

(** ** Cycle queries *)

(** Truth value of a Python list. *)
Definition truthy {A} (l : list A) : bool :=
  match l with [] => false | _ :: _ => true end.

(** [a or b]: the first operand when it is truthy, else the second. *)
Definition py_or {A} (a b : list A) : list A := if truthy a then a else b.

(** [Watcher.is_changed]: the value of the [or] chain, a list. *)
Definition is_changed (self : Watcher) : list ChangeItem :=
  py_or (py_or (deleted_items self) (created_items self)) (changed_items self).

(** [Watcher.created], [Watcher.deleted], [Watcher.changed]. *)
Definition created (self : Watcher) : bool :=
  bool_decide (0 < length (created_items self))%nat.
Definition deleted (self : Watcher) : bool :=
  bool_decide (0 < length (deleted_items self))%nat.
Definition changed (self : Watcher) : bool :=
  bool_decide (0 < length (changed_items self))%nat.

(** The inner loop of [issues_found] over [item.confirmed_existing_issues],
    with its [break]. *)
Fixpoint scan_existing_issues (issues : list Issue)
    (has_unjustified_issue : bool) : bool :=
  match issues with
  | [] => has_unjustified_issue
  | issue :: issues =>
    if negb (justified issue) then true
    else scan_existing_issues issues has_unjustified_issue
  end.

(** The outer loop of [issues_found], with its [break]. *)
Fixpoint issues_found_loop (items : list ChangeItem)
    (has_issues has_new_issue has_unjustified_issue : bool)
    : bool * bool * bool :=
  match items with
  | [] => (has_issues, has_new_issue, has_unjustified_issue)
  | item :: items =>
    if truthy (audit_issues item) then
      if found_new_issue item then (true, true, true)
      else
        issues_found_loop items true has_new_issue
          (scan_existing_issues (confirmed_existing_issues item)
             has_unjustified_issue)
    else
      issues_found_loop items has_issues has_new_issue has_unjustified_issue
  end.

(** [issues_found] on the sequence it scans. *)
Definition issues_found_of (items : list ChangeItem) : bool * bool * bool :=
  issues_found_loop items false false false.

(** [Watcher.issues_found]. *)
Definition issues_found (self : Watcher) : bool * bool * bool :=
  issues_found_of (created_items self ++ changed_items self).

(** The same scan with both [break]s removed: every record and every
    confirmed existing issue is visited. *)
Definition full_scan_step (flags : bool * bool * bool) (item : ChangeItem)
    : bool * bool * bool :=
  let '(has_issues, has_new_issue, has_unjustified_issue) := flags in
  if truthy (audit_issues item) then
    let has_new_issue :=
      if found_new_issue item then true else has_new_issue in
    let has_unjustified_issue :=
      if found_new_issue item then true else has_unjustified_issue in
    let has_unjustified_issue :=
      foldl (λ flag issue, if negb (justified issue) then true else flag)
        has_unjustified_issue (confirmed_existing_issues item) in
    (true, has_new_issue, has_unjustified_issue)
  else flags.

Definition issues_found_full_scan (items : list ChangeItem)
    : bool * bool * bool :=
  foldl full_scan_step (false, false, false) items.

(** The scan as section 4.5 of the specification words it, with the three
    tests side by side on every record rather than nested under the
    [auditIssues] test. *)
Fixpoint issues_found_as_worded (items : list ChangeItem)
    (has_issues has_new_issue has_unjustified_issue : bool)
    : bool * bool * bool :=
  match items with
  | [] => (has_issues, has_new_issue, has_unjustified_issue)
  | item :: items =>
    let has_issues := if truthy (audit_issues item) then true else has_issues in
    if found_new_issue item then (has_issues, true, true)
    else
      issues_found_as_worded items has_issues has_new_issue
        (scan_existing_issues (confirmed_existing_issues item)
           has_unjustified_issue)
  end.

(** ** Persisting a cycle *)

(** [for item in items: item.save(self.datastore)]. *)
Definition save_all (items : list ChangeItem) (ds : Datastore) : Datastore :=
  foldl (λ ds item, ChangeItem_save item ds) ds items.

(** [Watcher.save]. *)
Definition save (self : Watcher) : Watcher :=
  let ds := save_all (created_items self ++ deleted_items self)
              (datastore self) in
  let changeset :=
    if ephemerals_skipped self then ephemeral_items self
    else changed_items self in
  set_datastore self (save_all changeset ds).

(** ** The rate-limit retry loop *)

(** [increase_delay], the closure of [wrap_aws_rate_limited_call]. *)
Definition increase_delay (self : Watcher) : Watcher :=
  if (rate_limit_delay self =? 0)%Z then set_rate_limit_delay self 1
  else if (rate_limit_delay self <? 4)%Z
       then set_rate_limit_delay self (rate_limit_delay self * 2)
       else self.

(** The two [except] clauses: a [BotoServerError] whose [error_code], or a
    [ClientError] whose [response["Error"]["Code"]], is ["Throttling"]. *)
Definition is_throttling (e : aws_exception) : bool :=
  match e with
  | BotoServerError error_code => String.eqb error_code "Throttling"
  | ClientError code => String.eqb code "Throttling"
  | OtherException _ => false
  end.

(** The [while True] loop of [wrap_aws_rate_limited_call].  [awsfunc] is
    given by the outcomes of its successive calls and the loop consumes one
    outcome per attempt.  The result is the watcher, the sleeps and calls
    performed so far, and [Some] of the returned value or propagated
    exception, or [None] while the loop is still retrying when the known
    outcomes end. *)
Fixpoint retry_loop {A} (self : Watcher) (awsfunc : list (outcome A))
    (attempts : Z) (trace : list event)
    : Watcher * list event * option (outcome A) :=
  match awsfunc with
  | [] => (self, trace, None)
  | response :: awsfunc =>
    let attempts := attempts + 1 in
    let trace :=
      if (0 <? rate_limit_delay self)%Z
      then trace ++ [Sleep (rate_limit_delay self)] else trace in
    let trace := trace ++ [Call attempts] in
    match response with
    | Returns retval =>
      let self :=
        if (0 <? rate_limit_delay self)%Z then set_rate_limit_delay self 0
        else self in
      (self, trace, Some (Returns retval))
    | Raises e =>
      if is_throttling e
      then retry_loop (increase_delay self) awsfunc attempts trace
      else (self, trace, Some (Raises e))
    end
  end.

(** [Watcher.wrap_aws_rate_limited_call]: [attempts = 0], then the loop. *)
Definition wrap_aws_rate_limited_call {A} (self : Watcher)
    (awsfunc : list (outcome A))
    : Watcher * list event * option (outcome A) :=
  retry_loop self awsfunc 0 [].

(** The wait applied before each attempt of a trace: the [time.sleep]
    argument that precedes the call, or 0 when the call was made at once. *)
Fixpoint waits (trace : list event) : list Z :=
  match trace with
  | [] => []
  | Sleep d :: trace' =>
    match trace' with
    | Call _ :: trace'' => d :: waits trace''
    | _ => waits trace'
    end
  | Call _ :: trace' => 0 :: waits trace'
  end.

(** The sequence 0, 1, 2, 4, 4, 4, ... *)
Definition backoff_wait (k : nat) : Z :=
  match k with
  | O => 0
  | S O => 1
  | S (S O) => 2
  | _ => 4
  end.

(** ** What one run of a pass appends to each bucket *)

(** The locations [find_deleted] reports, in the order it visits them. *)
Definition deleted_locations (previous current : list ChangeItem)
    (exception_map : gmap Location string) : list Location :=
  not_excepted exception_map
    (elements (dom (dict_by_location previous)
                 ∖ dom (dict_by_location current))).

(** The locations [find_new] reports. *)
Definition created_locations (previous current : list ChangeItem)
    : list Location :=
  elements (dom (dict_by_location current) ∖ dom (dict_by_location previous)).

(** The locations [find_modified] compares. *)
Definition compared_locations (previous current : list ChangeItem)
    (exception_map : gmap Location string) : list Location :=
  not_excepted exception_map
    (elements (dom (dict_by_location current)
                 ∩ dom (dict_by_location previous))).

Definition deleted_delta (previous current : list ChangeItem)
    (exception_map : gmap Location string) : list ChangeItem :=
  omap (λ item, from_items (Some item) None)
    (items_at (dict_by_location previous)
       (deleted_locations previous current exception_map)).

Definition created_delta (previous current : list ChangeItem)
    : list ChangeItem :=
  omap (λ item, from_items None (Some item))
    (items_at (dict_by_location current)
       (created_locations previous current)).

(** The record of the unfiltered comparison at [loc] ([eph_change_item]). *)
Definition eph_change_at (prev_map curr_map : gmap Location ChangeItem)
    (loc : Location) : option ChangeItem :=
  match prev_map !! loc, curr_map !! loc with
  | Some prev_item, Some curr_item =>
    change_item_if_differs prev_item curr_item
  | _, _ => None
  end.

(** The record of the comparison at [loc] after the ephemeral paths are
    deleted from both copies ([dur_change_item]). *)
Definition dur_change_at (paths : list string)
    (prev_map curr_map : gmap Location ChangeItem)
    (loc : Location) : option ChangeItem :=
  match prev_map !! loc, curr_map !! loc with
  | Some prev_item, Some curr_item =>
    let cfgs := filter_ephemeral_paths paths
                  (config prev_item, config curr_item) in
    change_item_if_differs (with_config prev_item cfgs.1)
      (with_config curr_item cfgs.2)
  | _, _ => None
  end.

Definition ephemeral_delta (honor : bool)
    (previous current : list ChangeItem)
    (exception_map : gmap Location string) : list ChangeItem :=
  if honor then
    omap (eph_change_at (dict_by_location previous)
            (dict_by_location current))
      (compared_locations previous current exception_map)
  else [].

Definition changed_delta (honor : bool) (paths : list string)
    (previous current : list ChangeItem)
    (exception_map : gmap Location string) : list ChangeItem :=
  omap (if honor
        then dur_change_at paths (dict_by_location previous)
               (dict_by_location current)
        else eph_change_at (dict_by_location previous)
               (dict_by_location current))
    (compared_locations previous current exception_map).

(** A record of the bucket stands at location [loc]. *)
Definition at_location (loc : Location) (bucket : list ChangeItem) : Prop :=
  ∃ ci, ci ∈ bucket ∧ location ci = loc.

(** The exception map has an entry at the full location or at one of its
    prefixes of length three, two or one. *)
Definition covered (exception_map : gmap Location string)
    (loc : Location) : Prop :=
  is_Some (exception_map !! loc)
  ∨ is_Some (exception_map !! take 3 loc)
  ∨ is_Some (exception_map !! take 2 loc)
  ∨ is_Some (exception_map !! take 1 loc).

(** The only difference between the configurations of [prev_item] and
    [curr_item] lies at the paths [paths]: they differ under [sub_dict], and
    no longer do once every path of [paths] is deleted from both. *)
Definition only_ephemeral_delta (paths : list string)
    (prev_item curr_item : ChangeItem) : Prop :=
  sub_dict (config prev_item) ≠ sub_dict (config curr_item)
  ∧ let cfgs := filter_ephemeral_paths paths
                  (config prev_item, config curr_item) in
    sub_dict cfgs.1 = sub_dict cfgs.2.

(** A technology watcher switching the ephemeral filter on or off after
    [__init__]: [self.honor_ephemerals = honor] and
    [self.ephemeral_paths = paths]. *)
Definition set_ephemerals (self : Watcher) (honor : bool)
    (paths : list string) : Watcher :=
  mkWatcher (w_index self) (accounts self) (datastore self)
    (created_items self) (deleted_items self) (changed_items self)
    (ephemeral_items self) (rate_limit_delay self) honor paths.

(** The four buckets of a watcher: created, deleted, changed, ephemeral. *)
Definition buckets (self : Watcher)
    : list ChangeItem * list ChangeItem * list ChangeItem * list ChangeItem :=
  (created_items self, deleted_items self, changed_items self,
   ephemeral_items self).

(** Bucket-wise concatenation. *)
Definition buckets_app
    (b1 b2 : list ChangeItem * list ChangeItem * list ChangeItem
             * list ChangeItem) :=
  (b1.1.1.1 ++ b2.1.1.1, b1.1.1.2 ++ b2.1.1.2, b1.1.2 ++ b2.1.2,
   b1.2 ++ b2.2).

(** The same watcher with the buckets as [__init__] leaves them. *)
Definition with_empty_buckets (self : Watcher) : Watcher :=
  mkWatcher (w_index self) (accounts self) (datastore self) [] [] [] []
    (rate_limit_delay self) (honor_ephemerals self) (ephemeral_paths self).

(** The three cycle flags, record by record, as [issues_found] nests its
    tests: everything is under [if item.audit_issues]. *)
Definition has_audit_issues (item : ChangeItem) : bool :=
  truthy (audit_issues item).

Definition raises_new_issue (item : ChangeItem) : bool :=
  truthy (audit_issues item) && found_new_issue item.

Definition raises_unjustified_issue (item : ChangeItem) : bool :=
  truthy (audit_issues item)
  && (found_new_issue item
      || existsb (λ issue, negb (justified issue))
           (confirmed_existing_issues item)).

(** An outcome that the retry loop absorbs. *)
Definition is_throttled {A} (response : outcome A) : bool :=
  match response with
  | Returns _ => false
  | Raises e => is_throttling e
  end.

(** ** The ignore list *)

Context {lowercase : Lowercase}.

(** [s.lower()]. *)
Fixpoint lower (s : string) : string :=
  match s with
  | EmptyString => EmptyString
  | String c s => String (lower_char c) (lower s)
  end.

(** [s.startswith(p)]. *)
Fixpoint startswith (s p : string) {struct p} : bool :=
  match p, s with
  | EmptyString, _ => true
  | String _ _, EmptyString => false
  | String a p, String b s => Ascii.eqb a b && startswith s p
  end.

(** An [IgnoreListEntry] as [check_ignore_list] reads it: [result.prefix],
    which the database returns as [None] for an empty prefix. *)
Record IgnoreListEntry : Type := mkIgnoreListEntry {
  ignore_prefix : option string
}.

(** [result.prefix or ""]. *)
Definition prefix_or_empty (result : IgnoreListEntry) : string :=
  match ignore_prefix result with
  | Some p => p
  | None => ""
  end.

(** [Watcher.check_ignore_list] on [self.ignore_list]. *)
Fixpoint check_ignore_list (ignore_list : list IgnoreListEntry)
    (name : string) : bool :=
  match ignore_list with
  | [] => false
  | result :: ignore_list =>
    let prefix := prefix_or_empty result in
    if startswith (lower name) (lower prefix) then true
    else check_ignore_list ignore_list name
  end.

(** ** The latest configuration *)

(** [Watcher.get_latest_config]: the keys are sorted in ascending order of
    the timestamps' comparison [before], the last one is looked up.
    [timestamps[-1]] raises [IndexError] on an empty dictionary, which is
    [None] here. *)
Definition get_latest_config {K V} `{Countable K} (before : relation K)
    `{∀ x y, Decision (before x y)} (config_dict : gmap K V) : option V :=
  let timestamps := (map_to_list config_dict).*1 in
  let timestamps := merge_sort before timestamps in
  match last timestamps with
  | Some latest => config_dict !! latest
  | None => None
  end.

(** The three flags of two scans, or-ed flag by flag. *)
Definition flags_or (f1 f2 : bool * bool * bool) : bool * bool * bool :=
  (f1.1.1 || f2.1.1, f1.1.2 || f2.1.2, f1.2 || f2.2).

(** The delays the retry loop moves between. *)
Definition backoff_delay (delay : Z) : Prop :=
  delay = 0 ∨ delay = 1 ∨ delay = 2 ∨ delay = 4.

(** The [time.sleep] arguments of a trace, in order. *)
Definition sleeps (trace : list event) : list Z :=
  omap (λ ev, match ev with Sleep seconds => Some seconds | Call _ => None end)
    trace.

(** The attempt numbers of the calls of a trace, in order. *)
Definition calls (trace : list event) : list Z :=
  omap (λ ev, match ev with Call attempt => Some attempt | Sleep _ => None end)
    trace.

End Watcher.

(** ** Flat configurations for the concrete scenarios *)

(** A configuration that is a flat dictionary of strings: [sub_dict] keeps a
    dictionary of primitive values as it is, and a path without separator
    names a top-level key, whose deletion fails when the key is absent. *)
#[export] Instance flat_config : ConfigOps (gmap string string) := {|
  empty_config := ∅;
  sub_dict := λ cfg, cfg;
  dpath_delete := λ cfg path,
    match cfg !! path with
    | Some _ => Some (delete path cfg)
    | None => None
    end
|}.

Abbreviation FlatItem := (@ChangeItem (gmap string string)).
Abbreviation FlatWatcher := (@Watcher (gmap string string)).

(** A security group of account [a1] in [us-east-1], as the snapshot
    producer or [read_previous_items] builds it. *)
Definition sg (name : string) (cfg : gmap string string) : FlatItem :=
  ChangeItem_init "sg" "us-east-1" "a1" name ∅ cfg false [].

(** A watcher fresh from [__init__], with an empty datastore. *)
Definition fresh : FlatWatcher :=
  Watcher_init "sg" ["a1"] (mkDatastore (λ _ _ _, []) []).

(** The same watcher after a technology subclass has declared the path
    [etag] ephemeral, with the filter on or off. *)
Definition etag_watcher (honor : bool) : FlatWatcher :=
  set_ephemerals fresh honor ["etag"].

(** Configurations of one security group across polls: the [etag] moves at
    every poll, the [rules] only when the group is edited. *)
Definition cfg_poll1 : gmap string string :=
  <["etag" := "1"]> {["rules" := "22"]}.
Definition cfg_poll2 : gmap string string :=
  <["etag" := "2"]> {["rules" := "22"]}.
Definition cfg_edited : gmap string string :=
  <["etag" := "3"]> {["rules" := "22,80"]}.

Definition sg1_location : Location := ["sg"; "a1"; "us-east-1"; "sg-1"].
Definition sg2_location : Location := ["sg"; "a1"; "us-east-1"; "sg-2"].

(** An exception map after a failure of the whole account [a1]. *)
Definition account_failure : gmap Location string :=
  slurp_exception ["sg"; "a1"] "AccessDenied" ∅.

(** A record flagged [found_new_issue] whose [audit_issues] is empty. *)
Definition flagged_without_issues : FlatItem :=
  mkChangeItem "sg" "us-east-1" "a1" "sg-1" ∅ ∅ true [] [] [] [] true.

(** Five throttling errors, from boto and from botocore. *)
Definition five_throttlings : list (outcome string) :=
  [Raises (BotoServerError "Throttling"); Raises (ClientError "Throttling");
   Raises (ClientError "Throttling"); Raises (BotoServerError "Throttling");
   Raises (ClientError "Throttling")].

(** The lowercase mapping of an 8-bit string in the C locale, for the
    concrete scenarios: the letters [A] to [Z] are moved to [a] to [z],
    every other byte is kept. *)
Definition ascii_lowercase : Lowercase := {|
  lower_char c :=
    let n := nat_of_ascii c in
    if ((65 <=? n) && (n <=? 90))%nat then ascii_of_nat (n + 32) else c
|}.

(** The group [sg-2] with an audit issue that the auditor found to be new. *)
Definition sg2_flagged : @ChangeItem (gmap string string) :=
  mkChangeItem "sg" "us-east-1" "a1" "sg-2" ∅ cfg_poll1 true
    [mkIssue "open to 0.0.0.0/0" false] [mkIssue "open to 0.0.0.0/0" false]
    [] [] true.

(** An ignore list with one prefix, and the same list followed by an entry
    whose prefix came back as [None]. *)
Definition prod_ignore_list : list IgnoreListEntry :=
  [mkIgnoreListEntry (Some "Prod-")].
Definition catch_all_ignore_list : list IgnoreListEntry :=
  [mkIgnoreListEntry (Some "Prod-"); mkIgnoreListEntry None].

(** The group [sg-1] as an auditor hands it back: active, with an audit
    issue attached. *)
Definition sg1_audited : FlatItem :=
  mkChangeItem "sg" "us-east-1" "a1" "sg-1" ∅ cfg_poll1 true
    [mkIssue "open to 0.0.0.0/0" false] [] [] [] false.

(** Three revisions of a configuration, keyed by integer timestamps. *)
Definition revisions : gmap Z string :=
  <[3 := "third"]> (<[1 := "first"]> {[2 := "second"]}).

(** * Properties *)

Section WatcherFacts.

Context {Config : Type} `{!ConfigOps Config} {lowercase : Lowercase}.

Implicit Types (self w : @Watcher Config) (item ci : @ChangeItem Config).
Implicit Types (d prev_map curr_map : gmap Location (@ChangeItem Config)).
Implicit Types (previous current items : list (@ChangeItem Config)).
Implicit Types (exception_map : gmap Location string) (loc : Location).

(** ** [from_items] *)

Lemma from_items_old item :
  from_items (Some item) None =
  Some (ChangeItem_init (index item) (region item) (account item) (name item)
          (config item) empty_config false (audit_issues item)).
Proof. reflexivity. Qed.

Lemma from_items_new item :
  from_items None (Some item) =
  Some (ChangeItem_init (index item) (region item) (account item) (name item)
          empty_config (config item) true (audit_issues item)).
Proof. reflexivity. Qed.

Lemma from_items_both old_item new_item :
  from_items (Some old_item) (Some new_item) =
  Some (ChangeItem_init (index new_item) (region new_item) (account new_item)
          (name new_item) (config old_item) (config new_item) true
          (audit_issues new_item)).
Proof. reflexivity. Qed.

Lemma from_items_location old_item new_item ci :
  from_items old_item new_item = Some ci →
  location ci = match new_item with
                | Some n => location n
                | None => from_option location [] old_item
                end.
Proof.
  destruct new_item as [n|], old_item as [o|]; cbn; intros [= <-]; done.
Qed.

(** ** Dictionaries keyed by location *)

Lemma dict_by_location_snoc items item :
  dict_by_location (items ++ [item]) =
  <[location item := item]> (dict_by_location items).
Proof. unfold dict_by_location. by rewrite foldl_app. Qed.

Lemma dict_by_location_lookup items loc item :
  dict_by_location items !! loc = Some item →
  location item = loc ∧ item ∈ items.
Proof.
  induction items as [|x items IH] using rev_ind; [done|].
  rewrite dict_by_location_snoc, lookup_insert.
  case_decide as Hloc.
  - intros [= <-]. split; [done|].
    apply elem_of_app. right. by apply list_elem_of_singleton.
  - intros Hitem. destruct (IH Hitem) as [? ?]. split; [done|].
    apply elem_of_app. by left.
Qed.

Lemma dict_by_location_dom items loc :
  loc ∈ dom (dict_by_location items) ↔ loc ∈ location <$> items.
Proof.
  induction items as [|x items IH] using rev_ind.
  - unfold dict_by_location; simpl.
    rewrite dom_empty, elem_of_empty, elem_of_nil. done.
  - rewrite dict_by_location_snoc, dom_insert, fmap_app.
    rewrite elem_of_union, elem_of_singleton, elem_of_app, IH. simpl.
    rewrite list_elem_of_singleton. tauto.
Qed.

(** ** The passes as appends *)

Lemma foldl_bucket_deleted (f : ChangeItem → option ChangeItem) items self :
  foldl (λ self item,
           set_deleted_items self (bucket_append (deleted_items self) (f item)))
        self items
  = set_deleted_items self (deleted_items self ++ omap f items).
Proof.
  revert self. induction items as [|item items IH]; intros self; simpl.
  - rewrite app_nil_r. by destruct self.
  - rewrite IH. destruct (f item); simpl; [|by destruct self].
    unfold set_deleted_items; simpl. by rewrite <-app_assoc.
Qed.

Lemma foldl_bucket_created (f : ChangeItem → option ChangeItem) items self :
  foldl (λ self item,
           set_created_items self (bucket_append (created_items self) (f item)))
        self items
  = set_created_items self (created_items self ++ omap f items).
Proof.
  revert self. induction items as [|item items IH]; intros self; simpl.
  - rewrite app_nil_r. by destruct self.
  - rewrite IH. destruct (f item); simpl; [|by destruct self].
    unfold set_created_items; simpl. by rewrite <-app_assoc.
Qed.

Lemma find_deleted_appends self previous current exception_map :
  find_deleted self previous current exception_map
  = set_deleted_items self
      (deleted_items self ++ deleted_delta previous current exception_map).
Proof. unfold find_deleted. by rewrite foldl_bucket_deleted. Qed.

Lemma find_new_appends self previous current :
  find_new self previous current
  = set_created_items self
      (created_items self ++ created_delta previous current).
Proof. unfold find_new. by rewrite foldl_bucket_created. Qed.

Lemma find_modified_body_appends prev_map curr_map self loc :
  find_modified_body prev_map curr_map self loc
  = set_changed_items
      (set_ephemeral_items self
         (ephemeral_items self ++
          if honor_ephemerals self
          then option_list (eph_change_at prev_map curr_map loc) else []))
      (changed_items self ++
       option_list
         ((if honor_ephemerals self
           then dur_change_at (ephemeral_paths self) prev_map curr_map
           else eph_change_at prev_map curr_map) loc)).
Proof.
  destruct self as [? ? ? ? ? chg eph ? honor paths].
  unfold find_modified_body, ephemerals_skipped; simpl.
  destruct honor; unfold eph_change_at, dur_change_at; simpl;
    destruct (prev_map !! loc) as [p|], (curr_map !! loc) as [c|]; simpl;
    rewrite ?app_nil_r; try done.
  - destruct (change_item_if_differs p c), (change_item_if_differs _ _);
      simpl; by rewrite ?app_nil_r.
  - destruct (change_item_if_differs p c); simpl; by rewrite ?app_nil_r.
Qed.

Lemma find_modified_appends self previous current exception_map :
  find_modified self previous current exception_map
  = set_changed_items
      (set_ephemeral_items self
         (ephemeral_items self ++
          ephemeral_delta (honor_ephemerals self) previous current
            exception_map))
      (changed_items self ++
       changed_delta (honor_ephemerals self) (ephemeral_paths self)
         previous current exception_map).
Proof.
  unfold find_modified, ephemeral_delta, changed_delta.
  fold (compared_locations previous current exception_map).
  generalize (compared_locations previous current exception_map) as locs.
  generalize (dict_by_location previous) (dict_by_location current).
  intros prev_map curr_map locs. revert self.
  induction locs as [|loc locs IH]; intros self; simpl.
  - destruct self as [? ? ? ? ? ? ? ? [] ?]; simpl; by rewrite !app_nil_r.
  - rewrite IH, find_modified_body_appends.
    destruct self as [? ? ? ? ? chg eph ? honor paths]; simpl.
    unfold set_changed_items, set_ephemeral_items; simpl.
    destruct honor; simpl.
    + destruct (eph_change_at _ _ loc), (dur_change_at _ _ _ loc); simpl;
        by rewrite <-?app_assoc, ?app_nil_r.
    + destruct (eph_change_at _ _ loc); simpl;
        by rewrite <-?app_assoc, ?app_nil_r.
Qed.

(** ** Snapshots with unique locations *)

Lemma locationInExceptionMap_empty loc :
  locationInExceptionMap loc ∅ = false.
Proof.
  unfold locationInExceptionMap, dict_contains.
  rewrite !lookup_empty, bool_decide_eq_false_2; [done|].
  by intros [? ?].
Qed.

Lemma not_excepted_empty (locs : list Location) : not_excepted ∅ locs = locs.
Proof.
  unfold not_excepted. induction locs as [|loc locs IH]; [done|].
  rewrite filter_cons_True by apply locationInExceptionMap_empty.
  by rewrite IH.
Qed.

Lemma items_at_keys d (kvs : list (Location * @ChangeItem Config)) :
  (∀ kv, kv ∈ kvs → d !! kv.1 = Some kv.2) →
  items_at d kvs.*1 = kvs.*2.
Proof.
  unfold items_at. induction kvs as [|kv kvs IH]; intros Hd; [done|].
  simpl. rewrite (Hd kv) by left. simpl. f_equal.
  apply IH. intros ? ?. apply Hd. by right.
Qed.

Lemma items_at_dom d :
  items_at d (elements (dom d)) ≡ₚ (map_to_list d).*2.
Proof.
  assert (elements (dom d) ≡ₚ (map_to_list d).*1) as Hkeys.
  { apply NoDup_Permutation.
    - apply NoDup_elements.
    - apply NoDup_fst_map_to_list.
    - intros loc. rewrite elem_of_elements, elem_of_dom, list_elem_of_fmap.
      split.
      + intros [item Hitem]. exists (loc, item).
        by rewrite elem_of_map_to_list.
      + intros [[k item] [-> Hkv%elem_of_map_to_list]]. by exists item. }
  unfold items_at at 1. rewrite Hkeys. apply reflexive_eq, items_at_keys.
  intros [k item] Hkv. by apply elem_of_map_to_list.
Qed.

Lemma dict_by_location_to_list items :
  NoDup (location <$> items) →
  map_to_list (dict_by_location items) ≡ₚ (λ item, (location item, item)) <$> items.
Proof.
  induction items as [|x items IH] using rev_ind; intros Hnd.
  - unfold dict_by_location; simpl. by rewrite map_to_list_empty.
  - rewrite fmap_app in Hnd. apply NoDup_app in Hnd as (Hnd & Hfresh & _).
    rewrite dict_by_location_snoc, fmap_app, map_to_list_insert.
    + simpl. rewrite IH by done. by rewrite Permutation_app_comm.
    + apply not_elem_of_dom. rewrite dict_by_location_dom.
      intros Hin. apply (Hfresh _ Hin). simpl. left.
Qed.

Lemma items_at_all items :
  NoDup (location <$> items) →
  items_at (dict_by_location items)
    (elements (dom (dict_by_location items))) ≡ₚ items.
Proof.
  intros Hnd. rewrite items_at_dom, dict_by_location_to_list by done.
  rewrite <-list_fmap_compose. apply reflexive_eq.
  induction items as [|x items IH]; [done|]. simpl. f_equal.
  apply IH. by apply NoDup_cons in Hnd as [_ ?].
Qed.

(** ** One run of the three passes *)

Lemma find_changes_diff_passes self current exception_map :
  find_changes self current exception_map
  = diff_passes self (read_previous_items self) current exception_map.
Proof. reflexivity. Qed.

Lemma diff_passes_appends self previous current exception_map :
  diff_passes self previous current exception_map
  = mkWatcher (w_index self) (accounts self) (datastore self)
      (created_items self ++ created_delta previous current)
      (deleted_items self ++ deleted_delta previous current exception_map)
      (changed_items self ++
       changed_delta (honor_ephemerals self) (ephemeral_paths self)
         previous current exception_map)
      (ephemeral_items self ++
       ephemeral_delta (honor_ephemerals self) previous current exception_map)
      (rate_limit_delay self) (honor_ephemerals self) (ephemeral_paths self).
Proof.
  unfold diff_passes.
  by rewrite find_deleted_appends, find_new_appends, find_modified_appends.
Qed.

Lemma deleted_delta_all previous current :
  NoDup (location <$> previous) →
  (∀ loc, loc ∈ location <$> previous → loc ∉ location <$> current) →
  Some <$> deleted_delta previous current ∅
  ≡ₚ (λ item, from_items (Some item) None) <$> previous.
Proof.
  intros Hnd Hdisj. unfold deleted_delta, deleted_locations.
  rewrite not_excepted_empty.
  replace (dom (dict_by_location previous) ∖ dom (dict_by_location current))
    with (dom (dict_by_location previous)).
  - rewrite items_at_all by done.
    apply reflexive_eq. clear. induction previous; [done|]. simpl. by f_equal.
  - apply set_eq. intros loc. rewrite elem_of_difference.
    rewrite !dict_by_location_dom. pose proof (Hdisj loc). tauto.
Qed.

Lemma created_delta_all previous current :
  NoDup (location <$> current) →
  (∀ loc, loc ∈ location <$> previous → loc ∉ location <$> current) →
  Some <$> created_delta previous current
  ≡ₚ (λ item, from_items None (Some item)) <$> current.
Proof.
  intros Hnd Hdisj. unfold created_delta, created_locations.
  replace (dom (dict_by_location current) ∖ dom (dict_by_location previous))
    with (dom (dict_by_location current)).
  - rewrite items_at_all by done.
    apply reflexive_eq. clear. induction current; [done|]. simpl. by f_equal.
  - apply set_eq. intros loc. rewrite elem_of_difference.
    rewrite !dict_by_location_dom. pose proof (Hdisj loc). tauto.
Qed.

Lemma compared_locations_disjoint previous current exception_map :
  (∀ loc, loc ∈ location <$> previous → loc ∉ location <$> current) →
  compared_locations previous current exception_map = [].
Proof.
  intros Hdisj. unfold compared_locations.
  replace (dom (dict_by_location current) ∩ dom (dict_by_location previous))
    with (∅ : gset Location).
  - by rewrite elements_empty.
  - apply set_eq. intros loc.
    rewrite elem_of_intersection, !dict_by_location_dom, elem_of_empty.
    pose proof (Hdisj loc). tauto.
Qed.

(** C1.  Two snapshots (lists of items, each with pairwise distinct
    locations) that share no location, diffed with an empty exception map by
    a watcher whose buckets are empty: the created bucket holds exactly the
    records [from_items(None, item)] of the items of [current], one each,
    the deleted bucket exactly the records [from_items(item, None)] of the
    items of [previous], one each, and the changed bucket is empty.  The
    order within a bucket is that of Python's set iteration, hence the
    permutation. *)
Theorem disjoint_snapshots_diff self previous current :
  NoDup (location <$> previous) →
  NoDup (location <$> current) →
  (∀ loc, loc ∈ location <$> previous → loc ∉ location <$> current) →
  created_items self = [] →
  deleted_items self = [] →
  changed_items self = [] →
  let self' := diff_passes self previous current ∅ in
  Some <$> created_items self'
    ≡ₚ (λ item, from_items None (Some item)) <$> current
  ∧ Some <$> deleted_items self'
    ≡ₚ (λ item, from_items (Some item) None) <$> previous
  ∧ changed_items self' = [].
Proof.
  intros Hprev Hcur Hdisj Hc Hd Hm. simpl.
  rewrite diff_passes_appends; simpl. rewrite Hc, Hd, Hm; simpl.
  split; [by apply created_delta_all|].
  split; [by apply deleted_delta_all|].
  unfold changed_delta. by rewrite compared_locations_disjoint.
Qed.

(** ** Suppression by the exception map *)

Lemma locationInExceptionMap_covered exception_map loc :
  locationInExceptionMap loc exception_map = true ↔ covered exception_map loc.
Proof.
  unfold locationInExceptionMap, covered, dict_contains.
  repeat case_bool_decide; intuition discriminate.
Qed.

Lemma elem_of_items_at d (locs : list Location) item :
  item ∈ items_at d locs ↔ ∃ loc, loc ∈ locs ∧ d !! loc = Some item.
Proof. unfold items_at. apply list_elem_of_omap. Qed.

Lemma elem_of_deleted_delta previous current exception_map ci :
  ci ∈ deleted_delta previous current exception_map ↔
  ∃ item, from_items (Some item) None = Some ci
    ∧ (dict_by_location previous !! (location item) = Some item)
    ∧ (location item ∉ dom (dict_by_location current))
    ∧ (locationInExceptionMap (location item) exception_map = false).
Proof.
  unfold deleted_delta, deleted_locations, not_excepted.
  rewrite list_elem_of_omap. split.
  - intros (item & Hitem & Hci). exists item. split; [done|].
    apply elem_of_items_at in Hitem as (loc & Hloc & Hlook).
    apply list_elem_of_filter in Hloc as [Hex Hloc].
    apply elem_of_elements, elem_of_difference in Hloc as [_ Hcur].
    destruct (dict_by_location_lookup _ _ _ Hlook) as [-> _]. done.
  - intros (item & Hci & Hlook & Hcur & Hex). exists item. split; [|done].
    apply elem_of_items_at. exists (location item). split; [|done].
    apply list_elem_of_filter. split; [done|].
    apply elem_of_elements, elem_of_difference. split; [|done].
    apply elem_of_dom. by exists item.
Qed.

Lemma elem_of_created_delta previous current ci :
  ci ∈ created_delta previous current ↔
  ∃ item, from_items None (Some item) = Some ci
    ∧ dict_by_location current !! (location item) = Some item
    ∧ location item ∉ dom (dict_by_location previous).
Proof.
  unfold created_delta, created_locations.
  rewrite list_elem_of_omap. split.
  - intros (item & Hitem & Hci). exists item. split; [done|].
    apply elem_of_items_at in Hitem as (loc & Hloc & Hlook).
    apply elem_of_elements, elem_of_difference in Hloc as [_ Hprev].
    destruct (dict_by_location_lookup _ _ _ Hlook) as [-> _]. done.
  - intros (item & Hci & Hlook & Hprev). exists item. split; [|done].
    apply elem_of_items_at. exists (location item). split; [|done].
    apply elem_of_elements, elem_of_difference. split; [|done].
    apply elem_of_dom. by exists item.
Qed.

(** C4.  A location of [previous] that is absent from [current] and for
    which the exception map has an entry at the full location or at its
    prefix of length three, two or one gets no record in the deleted bucket
    (a bucket that had none at that location before the run has none after
    it); and a location of [current] that is absent from [previous] has a
    record in the created bucket whatever the exception map holds. *)
Theorem suppressed_not_deleted_new_created
    self previous current exception_map loc :
  let self' := diff_passes self previous current exception_map in
  (loc ∈ location <$> previous → loc ∉ location <$> current →
   covered exception_map loc →
   ¬ at_location loc (deleted_items self) →
   ¬ at_location loc (deleted_items self'))
  ∧ (loc ∉ location <$> previous → loc ∈ location <$> current →
     at_location loc (created_items self')).
Proof.
  simpl. rewrite diff_passes_appends; simpl. split.
  - intros _ _ Hcov%locationInExceptionMap_covered Hbefore (ci & Hci & Hloc).
    apply elem_of_app in Hci as [Hci | Hci].
    { apply Hbefore. by exists ci. }
    apply elem_of_deleted_delta in Hci as (item & Hfrom & _ & _ & Hex).
    apply from_items_location in Hfrom. simpl in Hfrom. congruence.
  - intros Hprev Hcur.
    apply dict_by_location_dom, elem_of_dom in Hcur as [item Hitem].
    destruct (dict_by_location_lookup _ _ _ Hitem) as [<- _].
    destruct (from_items None (Some item)) as [ci|] eqn:Hfrom; [|done].
    exists ci. split.
    + apply elem_of_app. right. apply elem_of_created_delta.
      exists item. by rewrite dict_by_location_dom.
    + by apply from_items_location in Hfrom.
Qed.

(** ** Modified locations *)

Lemma elem_of_compared_locations previous current exception_map loc :
  loc ∈ compared_locations previous current exception_map ↔
  locationInExceptionMap loc exception_map = false
  ∧ is_Some (dict_by_location current !! loc)
  ∧ is_Some (dict_by_location previous !! loc).
Proof.
  unfold compared_locations, not_excepted.
  by rewrite list_elem_of_filter, elem_of_elements, elem_of_intersection,
    !elem_of_dom.
Qed.

Lemma change_item_if_differs_Some old_item new_item ci :
  change_item_if_differs old_item new_item = Some ci →
  location ci = location new_item.
Proof.
  unfold change_item_if_differs. case_decide; [done|].
  intros Hfrom. by apply from_items_location in Hfrom.
Qed.

Lemma eph_change_at_location previous current loc ci :
  eph_change_at (dict_by_location previous) (dict_by_location current) loc
    = Some ci →
  location ci = loc.
Proof.
  unfold eph_change_at.
  destruct (dict_by_location previous !! loc) as [p|]; [|done].
  destruct (dict_by_location current !! loc) as [c|] eqn:Hc; [|done].
  intros ->%change_item_if_differs_Some.
  by destruct (dict_by_location_lookup _ _ _ Hc).
Qed.

Lemma dur_change_at_location paths previous current loc ci :
  dur_change_at paths (dict_by_location previous) (dict_by_location current)
    loc = Some ci →
  location ci = loc.
Proof.
  unfold dur_change_at.
  destruct (dict_by_location previous !! loc) as [p|]; [|done].
  destruct (dict_by_location current !! loc) as [c|] eqn:Hc; [|done].
  intros ->%change_item_if_differs_Some.
  by destruct (dict_by_location_lookup _ _ _ Hc).
Qed.

Lemma only_ephemeral_delta_eph paths prev_item curr_item :
  only_ephemeral_delta paths prev_item curr_item →
  change_item_if_differs prev_item curr_item
  = from_items (Some prev_item) (Some curr_item).
Proof.
  intros [Hdiff _]. unfold change_item_if_differs. by rewrite decide_False.
Qed.

Lemma only_ephemeral_delta_dur paths prev_item curr_item :
  only_ephemeral_delta paths prev_item curr_item →
  let cfgs := filter_ephemeral_paths paths
                (config prev_item, config curr_item) in
  change_item_if_differs (with_config prev_item cfgs.1)
    (with_config curr_item cfgs.2) = None.
Proof.
  intros [_ Hsame]. unfold change_item_if_differs. simpl in *.
  by rewrite decide_True.
Qed.

(** C5, amended.  A resource present in both snapshots, at a location the
    exception map does not cover, whose only configuration difference lies
    at the ephemeral paths: with [honor_ephemerals] set its record
    [from_items(prev_item, curr_item)] is put in the ephemeral bucket and
    nothing is put at its location in the changed bucket; with
    [honor_ephemerals] unset the record is put in the changed bucket. *)
Theorem ephemeral_only_change_buckets
    self previous current exception_map loc prev_item curr_item :
  dict_by_location previous !! loc = Some prev_item →
  dict_by_location current !! loc = Some curr_item →
  locationInExceptionMap loc exception_map = false →
  only_ephemeral_delta (ephemeral_paths self) prev_item curr_item →
  let self' := find_modified self previous current exception_map in
  ∃ ci, from_items (Some prev_item) (Some curr_item) = Some ci
    ∧ location ci = loc
    ∧ (honor_ephemerals self = true →
       ci ∈ ephemeral_items self'
       ∧ (¬ at_location loc (changed_items self) →
          ¬ at_location loc (changed_items self')))
    ∧ (honor_ephemerals self = false → ci ∈ changed_items self').
Proof.
  intros Hprev Hcur Hex Hdelta. simpl.
  rewrite find_modified_appends; simpl.
  destruct (from_items (Some prev_item) (Some curr_item)) as [ci|] eqn:Hci;
    [|done].
  assert (location ci = loc) as Hloc.
  { apply from_items_location in Hci.
    by destruct (dict_by_location_lookup _ _ _ Hcur) as [<- _]. }
  assert (loc ∈ compared_locations previous current exception_map) as Hin.
  { apply elem_of_compared_locations. eauto. }
  assert (eph_change_at (dict_by_location previous)
            (dict_by_location current) loc = Some ci) as Heph.
  { unfold eph_change_at. rewrite Hprev, Hcur.
    by rewrite (only_ephemeral_delta_eph _ _ _ Hdelta). }
  exists ci. split; [done|]. split; [done|]. split; intros Hhonor.
  - rewrite Hhonor. unfold ephemeral_delta, changed_delta. split.
    + apply elem_of_app. right. apply list_elem_of_omap. eauto.
    + intros Hbefore (ci' & Hci' & Hloc').
      apply elem_of_app in Hci' as [Hci' | Hci'].
      { apply Hbefore. by exists ci'. }
      apply list_elem_of_omap in Hci' as (loc' & _ & Hdur).
      pose proof (dur_change_at_location _ _ _ _ _ Hdur) as Heq.
      rewrite Hloc' in Heq. subst loc'. revert Hdur.
      unfold dur_change_at. rewrite Hprev, Hcur.
      by rewrite (only_ephemeral_delta_dur _ _ _ Hdelta).
  - rewrite Hhonor. unfold changed_delta.
    apply elem_of_app. right. apply list_elem_of_omap. eauto.
Qed.

(** ** Running the reconciler again *)

Lemma read_previous_items_diff_passes self previous current exception_map :
  read_previous_items (diff_passes self previous current exception_map)
  = read_previous_items self.
Proof. by rewrite diff_passes_appends. Qed.

Lemma buckets_diff_passes self previous current exception_map :
  buckets (diff_passes self previous current exception_map)
  = buckets_app (buckets self)
      (buckets (diff_passes (with_empty_buckets self) previous current
                  exception_map)).
Proof. by rewrite !diff_passes_appends. Qed.

(** C6, amended.  The buckets are emptied only by [__init__] and every pass
    appends.  One run of [find_changes] appends to each bucket what a run
    on the same watcher with empty buckets produces, which depends on the
    snapshots, the exception map and the ephemeral settings alone; a second
    run on the same watcher appends the same records once more.  So the
    buckets after two runs equal those after one run exactly when the run
    reports nothing. *)
Theorem find_changes_twice self current exception_map :
  let delta := buckets (find_changes (with_empty_buckets self) current
                          exception_map) in
  let once := find_changes self current exception_map in
  let twice := find_changes once current exception_map in
  buckets once = buckets_app (buckets self) delta
  ∧ buckets twice = buckets_app (buckets once) delta
  ∧ (buckets twice = buckets once ↔ delta = ([], [], [], [])).
Proof.
  simpl. rewrite !find_changes_diff_passes.
  rewrite read_previous_items_diff_passes.
  change (read_previous_items (with_empty_buckets self))
    with (read_previous_items self).
  set (previous := read_previous_items self).
  assert (buckets (diff_passes (diff_passes self previous current
                                  exception_map)
                     previous current exception_map)
          = buckets_app (buckets (diff_passes self previous current
                                    exception_map))
              (buckets (diff_passes (with_empty_buckets self) previous
                          current exception_map))) as Htwice.
  { rewrite (buckets_diff_passes (diff_passes _ _ _ _)).
    by rewrite !diff_passes_appends. }
  split; [apply buckets_diff_passes|]. split; [done|].
  rewrite Htwice.
  destruct (buckets (diff_passes self _ _ _)) as [[[c d] m] e].
  destruct (buckets (diff_passes (with_empty_buckets self) _ _ _))
    as [[[c' d'] m'] e'].
  unfold buckets_app; simpl. split.
  - intros [= Hc Hd Hm He].
    apply (f_equal length) in Hc, Hd, Hm, He.
    rewrite length_app in Hc, Hd, Hm, He.
    destruct c', d', m', e'; simpl in *; first [done | lia].
  - intros [= -> -> -> ->]. by rewrite !app_nil_r.
Qed.

(** ** Issue flags *)

Lemma scan_existing_issues_existsb (issues : list Issue) flag :
  scan_existing_issues issues flag
  = flag || existsb (λ issue, negb (justified issue)) issues.
Proof.
  induction issues as [|issue issues IH]; simpl.
  - by rewrite orb_false_r.
  - rewrite IH. destruct (justified issue), flag; simpl; done.
Qed.

Lemma full_scan_existing_existsb (issues : list Issue) flag :
  foldl (λ flag issue, if negb (justified issue) then true else flag)
    flag issues
  = flag || existsb (λ issue, negb (justified issue)) issues.
Proof.
  revert flag. induction issues as [|issue issues IH]; intros flag; simpl.
  - by rewrite orb_false_r.
  - rewrite IH. destruct (justified issue), flag; simpl; done.
Qed.

Lemma issues_found_loop_flags items has_issues has_new has_unjustified :
  issues_found_loop items has_issues has_new has_unjustified
  = (has_issues || existsb has_audit_issues items,
     has_new || existsb raises_new_issue items,
     has_unjustified || existsb raises_unjustified_issue items).
Proof.
  revert has_issues has_new has_unjustified.
  induction items as [|item items IH]; intros a b c; simpl.
  - by rewrite !orb_false_r.
  - unfold has_audit_issues, raises_new_issue, raises_unjustified_issue.
    destruct (truthy (audit_issues item)); simpl; [|apply IH].
    destruct (found_new_issue item); simpl.
    + by rewrite !orb_true_r.
    + rewrite IH, scan_existing_issues_existsb.
      by rewrite orb_true_r, !orb_assoc.
Qed.

Lemma full_scan_flags items flags :
  foldl full_scan_step flags items
  = (flags.1.1 || existsb has_audit_issues items,
     flags.1.2 || existsb raises_new_issue items,
     flags.2 || existsb raises_unjustified_issue items).
Proof.
  revert flags.
  induction items as [|item items IH]; intros [[a b] c]; simpl.
  - by rewrite !orb_false_r.
  - rewrite IH.
    unfold has_audit_issues, raises_new_issue, raises_unjustified_issue.
    destruct (truthy (audit_issues item)); simpl; [|done].
    rewrite full_scan_existing_existsb.
    destruct (found_new_issue item); simpl;
      by rewrite ?orb_true_r, ?orb_assoc.
Qed.

(** C7, amended.  [issues_found] scans the records in order and every test
    is nested under [if item.audit_issues]: a record with nonempty
    [audit_issues] sets [has_issues]; such a record with [found_new_issue]
    sets [has_new_issue] and [has_unjustified_issue] and ends the scan, the
    records after it are not looked at; such a record without
    [found_new_issue] sets [has_unjustified_issue] when one of its
    [confirmed_existing_issues] is not justified.  A record with empty
    [audit_issues] sets nothing and does not end the scan. *)
Theorem issues_found_flags items :
  issues_found_of items
  = (existsb has_audit_issues items,
     existsb raises_new_issue items,
     existsb raises_unjustified_issue items)
  ∧ (∀ before item after,
       items = before ++ item :: after →
       raises_new_issue item = true →
       issues_found_of items = (true, true, true)
       ∧ issues_found_of (before ++ [item]) = issues_found_of items)
  ∧ (∀ item,
       has_audit_issues item = false →
       issues_found_of (item :: items) = issues_found_of items).
Proof.
  unfold issues_found_of. split; [by rewrite issues_found_loop_flags|].
  split.
  - intros before item after -> Hnew.
    assert (has_audit_issues item = true ∧ raises_unjustified_issue item = true)
      as [Haudit Hunj].
    { revert Hnew.
      unfold raises_new_issue, has_audit_issues, raises_unjustified_issue.
      destruct (truthy _), (found_new_issue item); simpl; done. }
    rewrite !issues_found_loop_flags, !existsb_app; simpl.
    rewrite Hnew, Haudit, Hunj; simpl. by rewrite !orb_true_r.
  - intros item Haudit. simpl.
    unfold has_audit_issues in Haudit. by rewrite Haudit.
Qed.

(** C8.  The flags of the scan with its [break]s are the flags of the scan
    that visits every record and every confirmed existing issue. *)
Theorem issues_found_short_circuit_sound items :
  issues_found_of items = issues_found_full_scan items.
Proof.
  unfold issues_found_of, issues_found_full_scan.
  by rewrite issues_found_loop_flags, full_scan_flags.
Qed.

(** ** Building a record *)

(** C9.  [from_items] of two absent items returns [None], no record and no
    exception; with at least one item present it returns a record, whose
    [active] is true exactly when the new item is present and whose
    [config] is its [new_config], the new item's configuration or [{}]. *)
Theorem from_items_record (old_item new_item : option (@ChangeItem Config)) :
  (old_item = None → new_item = None → from_items old_item new_item = None)
  ∧ (is_Some old_item ∨ is_Some new_item →
     ∃ ci, from_items old_item new_item = Some ci
       ∧ (active ci = true ↔ is_Some new_item)
       ∧ config ci = new_config ci
       ∧ new_config ci = from_option config empty_config new_item
       ∧ old_config ci = from_option config empty_config old_item).
Proof.
  split; [by intros -> ->|].
  destruct new_item as [n|], old_item as [o|]; simpl; intros Hsome.
  - eexists. split; [reflexivity|]. simpl. by split.
  - eexists. split; [reflexivity|]. simpl. by split.
  - eexists. split; [reflexivity|]. simpl. split; [|done].
    split; [done|]. by intros [? ?].
  - destruct Hsome as [[? ?] | [? ?]]; done.
Qed.

(** ** Whether the cycle found a change *)

Lemma truthy_nonempty {A} (l : list A) : truthy l = true ↔ l ≠ [].
Proof. by destruct l. Qed.

Lemma truthy_py_or {A} (a b : list A) :
  truthy (py_or a b) = truthy a || truthy b.
Proof. unfold py_or. by destruct a. Qed.

(** C10.  The value [is_changed] returns is truthy exactly when the
    deleted, the created or the changed bucket is nonempty; the ephemeral
    bucket is not consulted, so a cycle that honours ephemerals and found
    only ephemeral modifications (ephemeral bucket nonempty, the three
    others empty) reports no change. *)
Theorem is_changed_truthy self :
  (truthy (is_changed self) = true ↔
   deleted_items self ≠ [] ∨ created_items self ≠ []
   ∨ changed_items self ≠ [])
  ∧ (honor_ephemerals self = true →
     ephemeral_items self ≠ [] →
     deleted_items self = [] → created_items self = [] →
     changed_items self = [] →
     truthy (is_changed self) = false).
Proof.
  unfold is_changed. rewrite !truthy_py_or. split.
  - rewrite !orb_true_iff, !truthy_nonempty. tauto.
  - by intros _ _ -> -> ->.
Qed.

(** ** Saving *)

Lemma save_all_stored items ds :
  stored (save_all items ds) = stored ds ++ (store_args <$> items).
Proof.
  revert ds. induction items as [|item items IH]; intros ds.
  - simpl. by rewrite app_nil_r.
  - change (save_all (item :: items) ds)
      with (save_all items (ChangeItem_save item ds)).
    rewrite IH. simpl. by rewrite <-app_assoc.
Qed.

(** C2, amended.  [save] stores, in this order, every record of the created
    bucket, every record of the deleted bucket and then one changeset: the
    changed bucket when [honor_ephemerals] is unset, the ephemeral bucket in
    its place when it is set; it stores nothing else. *)
Theorem save_stores self :
  stored (datastore (save self))
  = stored (datastore self)
    ++ (store_args <$> created_items self)
    ++ (store_args <$> deleted_items self)
    ++ (store_args <$> (if honor_ephemerals self then ephemeral_items self
                        else changed_items self)).
Proof.
  unfold save, ephemerals_skipped; simpl.
  by rewrite !save_all_stored, fmap_app, <-!app_assoc.
Qed.

(** ** Backing off *)

Lemma backoff_wait_nonneg k : 0 ≤ backoff_wait k.
Proof. destruct k as [|[|[|k]]]; simpl; lia. Qed.

Lemma increase_delay_backoff self k :
  rate_limit_delay self = backoff_wait k →
  rate_limit_delay (increase_delay self) = backoff_wait (S k).
Proof.
  unfold increase_delay. intros Hdelay. rewrite Hdelay.
  destruct k as [|[|[|k]]]; simpl; done.
Qed.

Lemma set_delay_increase_delay self (delay : Z) :
  set_rate_limit_delay (increase_delay self) delay
  = set_rate_limit_delay self delay.
Proof.
  unfold increase_delay.
  destruct (rate_limit_delay self =? 0)%Z; [done|].
  by destruct (rate_limit_delay self <? 4)%Z.
Qed.

Lemma retry_loop_trace_prefix {A} (awsfunc : list (outcome A)) self attempts trace :
  retry_loop self awsfunc attempts trace
  = let r := retry_loop self awsfunc attempts [] in
    (r.1.1, trace ++ r.1.2, r.2).
Proof.
  revert self attempts trace.
  induction awsfunc as [|response awsfunc IH]; intros self attempts trace.
  - simpl. by rewrite app_nil_r.
  - simpl. destruct response as [retval|e].
    + destruct (0 <? rate_limit_delay self)%Z; simpl;
        by rewrite <-?app_assoc.
    + destruct (is_throttling e).
      * rewrite IH. rewrite (IH _ _ (_ ++ _)). simpl.
        destruct (0 <? rate_limit_delay self)%Z; simpl;
          by rewrite <-?app_assoc.
      * destruct (0 <? rate_limit_delay self)%Z; simpl;
          by rewrite <-?app_assoc.
Qed.

Lemma waits_attempt (delay : Z) attempt (trace : list event) :
  0 ≤ delay →
  waits ((if 0 <? delay then [Sleep delay] else [])
         ++ Call attempt :: trace)
  = delay :: waits trace.
Proof.
  intros Hd. destruct (0 <? delay) eqn:Hpos; simpl; [done|].
  apply Z.ltb_ge in Hpos. f_equal. lia.
Qed.

Lemma retry_loop_throttled {A} (failures rest : list (outcome A)) self k attempts :
  rate_limit_delay self = backoff_wait k →
  Forall (λ response, is_throttled response = true) failures →
  let r := retry_loop self (failures ++ rest) attempts [] in
  let r' := retry_loop
              (set_rate_limit_delay self
                 (backoff_wait (k + length failures)))
              rest (attempts + Z.of_nat (length failures)) [] in
  r.1.1 = r'.1.1
  ∧ waits r.1.2 = (backoff_wait <$> seq k (length failures)) ++ waits r'.1.2
  ∧ r.2 = r'.2.
Proof.
  revert self k attempts.
  induction failures as [|response failures IH];
    intros self k attempts Hdelay Hthrottled.
  - simpl. rewrite Nat.add_0_r, Z.add_0_r, <-Hdelay. by destruct self.
  - apply Forall_cons in Hthrottled as [Hresponse Hthrottled].
    destruct response as [retval|e]; [done|]. simpl in Hresponse.
    cbn [app retry_loop]. rewrite Hresponse.
    rewrite retry_loop_trace_prefix.
    specialize (IH (increase_delay self) (S k) (attempts + 1)
                  (increase_delay_backoff _ _ Hdelay) Hthrottled).
    rewrite set_delay_increase_delay in IH.
    replace (S k + length failures)%nat
      with (k + length (Raises e :: failures))%nat in IH by (simpl; lia).
    replace (attempts + 1 + Z.of_nat (length failures))
      with (attempts + Z.of_nat (length (Raises e :: failures))) in IH
      by (simpl length; lia).
    destruct IH as (Hself & Hwaits & Hresult).
    cbn zeta in *. split; [done|]. split; [|done].
    cbn [fst snd]. rewrite Hdelay.
    assert (∀ t : list event,
              ((if (0 <? backoff_wait k)%Z
                then [] ++ [Sleep (backoff_wait k)] else [])
               ++ [Call (attempts + 1)]) ++ t
              = (if (0 <? backoff_wait k)%Z
                 then [Sleep (backoff_wait k)] else [])
                ++ Call (attempts + 1) :: t) as Htrace.
    { intros t. by destruct (0 <? backoff_wait k)%Z. }
    rewrite Htrace, waits_attempt by apply backoff_wait_nonneg.
    rewrite Hwaits. reflexivity.
Qed.

(** C3.  On a watcher whose delay is 0, while the wrapped function raises
    throttling errors one after the other the waits before the successive
    attempts are 0, 1, 2, 4, 4, 4, ... (no [time.sleep] before the first
    attempt) and the loop keeps retrying; when the next attempt succeeds it
    is made after the next wait of that sequence, its value is returned and
    the delay is back to 0. *)
Theorem throttling_backoff_sequence {A} (failures : list (outcome A))
    (retval : A) self :
  rate_limit_delay self = 0 →
  Forall (λ response, is_throttled response = true) failures →
  let n := length failures in
  let retrying := wrap_aws_rate_limited_call self failures in
  let returned :=
    wrap_aws_rate_limited_call self (failures ++ [Returns retval]) in
  (waits retrying.1.2 = backoff_wait <$> seq 0 n
   ∧ retrying.2 = None
   ∧ rate_limit_delay retrying.1.1 = backoff_wait n)
  ∧ (waits returned.1.2 = backoff_wait <$> seq 0 (S n)
     ∧ returned.2 = Some (Returns retval)
     ∧ rate_limit_delay returned.1.1 = 0).
Proof.
  intros Hfresh Hthrottled. unfold wrap_aws_rate_limited_call. cbn zeta.
  split.
  - destruct (retry_loop_throttled failures [] self 0 0 Hfresh Hthrottled)
      as (Hself & Hwaits & Hresult).
    rewrite app_nil_r in *. simpl in *.
    rewrite Hself, Hwaits, Hresult. by rewrite app_nil_r.
  - destruct (retry_loop_throttled failures [Returns retval] self 0 0
                Hfresh Hthrottled) as (Hself & Hwaits & Hresult).
    rewrite Hself, Hwaits, Hresult. clear Hself Hwaits Hresult.
    rewrite seq_S, fmap_app. simpl.
    pose proof (backoff_wait_nonneg (length failures)) as Hnonneg.
    destruct (0 <? backoff_wait (length failures))%Z eqn:Hpos; simpl.
    + done.
    + apply Z.ltb_ge in Hpos.
      replace (backoff_wait (length failures)) with 0 by lia. done.
Qed.

(** ** Ignoring by prefix *)

Lemma lower_app s1 s2 : lower (s1 +:+ s2) = lower s1 +:+ lower s2.
Proof. induction s1 as [|c s1 IH]; [done|]. simpl. by rewrite IH. Qed.

Lemma string_app_assoc (s1 s2 s3 : string) :
  (s1 +:+ s2) +:+ s3 = s1 +:+ s2 +:+ s3.
Proof.
  induction s1 as [|c s1 IH]; [done|].
  change (String c ((s1 +:+ s2) +:+ s3) = String c (s1 +:+ s2 +:+ s3)).
  by rewrite IH.
Qed.

Lemma startswith_app s p : startswith s p = true ↔ ∃ rest, s = p +:+ rest.
Proof.
  revert s. induction p as [|a p IH]; intros s; simpl.
  - split; [by exists s|done].
  - destruct s as [|b s].
    + split; [done|]. by intros [rest ?].
    + rewrite andb_true_iff, Ascii.eqb_eq, IH. split.
      * intros [-> [rest ->]]. by exists rest.
      * intros [rest [= -> ->]]. split; [done|]. by exists rest.
Qed.

Lemma check_ignore_list_exists ignore_list name :
  check_ignore_list ignore_list name = true ↔
  ∃ result, result ∈ ignore_list
    ∧ startswith (lower name) (lower (prefix_or_empty result)) = true.
Proof.
  induction ignore_list as [|result ignore_list IH]; simpl.
  - split; [done|]. intros (? & []%elem_of_nil & _).
  - destruct (startswith (lower name) (lower (prefix_or_empty result)))
      eqn:Hstarts.
    + split; [|done]. intros _. exists result. split; [left|done].
    + rewrite IH. split.
      * intros (r & Hin & Hr). exists r. split; [by right|done].
      * intros (r & [-> | Hin]%elem_of_cons & Hr); [congruence|].
        by exists r.
Qed.

(** X1.  An ignore-list entry whose prefix is absent ([None]) or empty
    makes [check_ignore_list] answer [True] for every name. *)
Theorem empty_prefix_ignores_everything ignore_list result name :
  result ∈ ignore_list →
  ignore_prefix result = None ∨ ignore_prefix result = Some "" →
  check_ignore_list ignore_list name = true.
Proof.
  intros Hin Hprefix. apply check_ignore_list_exists. exists result.
  split; [done|]. unfold prefix_or_empty.
  by destruct Hprefix as [-> | ->].
Qed.

(** X2.  [check_ignore_list] answers [True] exactly when the lowercased
    name begins with the lowercased prefix of some entry of the list,
    whatever the position of the entry. *)
Theorem check_ignore_list_matches ignore_list name :
  check_ignore_list ignore_list name = true ↔
  ∃ result rest, result ∈ ignore_list
    ∧ lower name = lower (prefix_or_empty result) +:+ rest.
Proof.
  rewrite check_ignore_list_exists. split.
  - intros (result & Hin & [rest Hrest]%startswith_app). by exists result, rest.
  - intros (result & rest & Hin & Hrest). exists result. split; [done|].
    apply startswith_app. by exists rest.
Qed.

(** X3.  The answer of [check_ignore_list] depends on the name and on
    the prefixes only through their lowercase forms: two names that are
    equal once lowercased get the same answer, also from two ignore lists
    whose prefixes are pairwise equal once lowercased. *)
Theorem check_ignore_list_ignores_case ignore_list ignore_list' name name' :
  lower name = lower name' →
  Forall2 (λ result result',
             lower (prefix_or_empty result) = lower (prefix_or_empty result'))
    ignore_list ignore_list' →
  check_ignore_list ignore_list name = check_ignore_list ignore_list' name'.
Proof.
  intros Hname Hprefixes.
  induction Hprefixes as [|result result' ignore_list ignore_list' Hprefix _ IH];
    [done|].
  simpl. by rewrite Hname, Hprefix, IH.
Qed.

(** X4.  A name that is ignored stays ignored when it is extended: every
    name beginning with an ignored name is ignored. *)
Theorem check_ignore_list_extension ignore_list name suffix :
  check_ignore_list ignore_list name = true →
  check_ignore_list ignore_list (name +:+ suffix) = true.
Proof.
  rewrite !check_ignore_list_exists.
  intros (result & Hin & [rest Hrest]%startswith_app).
  exists result. split; [done|]. apply startswith_app.
  exists (rest +:+ lower suffix). by rewrite lower_app, Hrest, string_app_assoc.
Qed.

(** ** Recording failures *)

Lemma dict_contains_insert (key key' : Location) exception exception_map :
  dict_contains key' (<[key := exception]> exception_map)
  = if decide (key = key') then true else dict_contains key' exception_map.
Proof.
  unfold dict_contains. rewrite lookup_insert. case_decide; [|done].
  apply bool_decide_eq_true_2. by eexists.
Qed.

(** X5.  Once [slurp_exception] has recorded a failure at a location or at
    its prefix of length three, two or one, [locationInExceptionMap]
    answers [True] for that location, whatever the map held before. *)
Theorem slurp_exception_covers loc key exception exception_map :
  key = loc ∨ key = take 3 loc ∨ key = take 2 loc ∨ key = take 1 loc →
  locationInExceptionMap loc (slurp_exception key exception exception_map)
  = true.
Proof.
  intros Hkey. unfold locationInExceptionMap, slurp_exception.
  rewrite !dict_contains_insert.
  destruct Hkey as [-> | [-> | [-> | ->]]];
    repeat case_decide; repeat case_match; done.
Qed.

(** X6.  A failure recorded at a key that is neither the location nor one
    of its three prefixes does not change what [locationInExceptionMap]
    answers for the location: a failure of one region, account or
    technology leaves the others as they were. *)
Theorem slurp_exception_elsewhere loc key exception exception_map :
  key ≠ loc → key ≠ take 3 loc → key ≠ take 2 loc → key ≠ take 1 loc →
  locationInExceptionMap loc (slurp_exception key exception exception_map)
  = locationInExceptionMap loc exception_map.
Proof.
  intros H4 H3 H2 H1. unfold locationInExceptionMap, slurp_exception.
  rewrite !dict_contains_insert. by rewrite !decide_False.
Qed.

(** ** What a run reports, location by location *)

Lemma omap_omap {A B C} (f : A → option B) (g : B → option C) (l : list A) :
  omap g (omap f l) = omap (λ x, f x ≫= g) l.
Proof.
  induction l as [|x l IH]; [done|]. csimpl.
  destruct (f x) as [y|]; csimpl; [|done].
  destruct (g y); csimpl; by rewrite IH.
Qed.

Lemma omap_all_None {A B} (f : A → option B) (l : list A) :
  (∀ x, x ∈ l → f x = None) → omap f l = [].
Proof.
  induction l as [|x l IH]; intros Hf; [done|]. simpl.
  rewrite (Hf x) by left. apply IH. intros y Hy. apply Hf. by right.
Qed.

Lemma NoDup_omap_location (f : Location → option (@ChangeItem Config))
    (locs : list Location) :
  (∀ loc ci, f loc = Some ci → location ci = loc) →
  NoDup locs → NoDup (location <$> omap f locs).
Proof.
  intros Hf. induction 1 as [|loc locs Hfresh Hnd IH]; simpl.
  - constructor.
  - destruct (f loc) as [ci|] eqn:Hci; [|done]. simpl. constructor; [|done].
    rewrite (Hf _ _ Hci).
    intros (ci' & Hloc & (loc' & Hin & Hci')%list_elem_of_omap)%list_elem_of_fmap.
    apply Hf in Hci'. congruence.
Qed.

Lemma deleted_delta_omap previous current exception_map :
  deleted_delta previous current exception_map
  = omap (λ loc, dict_by_location previous !! loc
                 ≫= λ item, from_items (Some item) None)
      (deleted_locations previous current exception_map).
Proof. unfold deleted_delta, items_at. apply omap_omap. Qed.

Lemma created_delta_omap previous current :
  created_delta previous current
  = omap (λ loc, dict_by_location current !! loc
                 ≫= λ item, from_items None (Some item))
      (created_locations previous current).
Proof. unfold created_delta, items_at. apply omap_omap. Qed.

Lemma at_location_deleted_delta previous current exception_map loc :
  at_location loc (deleted_delta previous current exception_map) ↔
  is_Some (dict_by_location previous !! loc)
  ∧ dict_by_location current !! loc = None
  ∧ locationInExceptionMap loc exception_map = false.
Proof.
  unfold at_location. split.
  - intros (ci & (item & Hfrom & Hitem & Hcur & Hex)%elem_of_deleted_delta
              & <-).
    apply from_items_location in Hfrom. simpl in Hfrom. rewrite Hfrom.
    split; [by eexists|]. split; [|done]. by apply not_elem_of_dom.
  - intros ([item Hitem] & Hcur & Hex).
    destruct (dict_by_location_lookup _ _ _ Hitem) as [<- _].
    destruct (from_items (Some item) None) as [ci|] eqn:Hfrom; [|done].
    exists ci. split.
    + apply elem_of_deleted_delta. exists item.
      split; [done|]. split; [done|]. split; [|done].
      by apply not_elem_of_dom.
    + by apply from_items_location in Hfrom.
Qed.

Lemma at_location_created_delta previous current loc :
  at_location loc (created_delta previous current) ↔
  is_Some (dict_by_location current !! loc)
  ∧ dict_by_location previous !! loc = None.
Proof.
  unfold at_location. split.
  - intros (ci & (item & Hfrom & Hitem & Hprev)%elem_of_created_delta & <-).
    apply from_items_location in Hfrom. simpl in Hfrom. rewrite Hfrom.
    split; [by eexists|]. by apply not_elem_of_dom.
  - intros ([item Hitem] & Hprev).
    destruct (dict_by_location_lookup _ _ _ Hitem) as [<- _].
    destruct (from_items None (Some item)) as [ci|] eqn:Hfrom; [|done].
    exists ci. split.
    + apply elem_of_created_delta. exists item.
      split; [done|]. split; [done|]. by apply not_elem_of_dom.
    + by apply from_items_location in Hfrom.
Qed.

Lemma at_location_changed_delta honor paths previous current exception_map
    loc :
  at_location loc (changed_delta honor paths previous current exception_map)
  → loc ∈ compared_locations previous current exception_map.
Proof.
  unfold at_location, changed_delta.
  intros (ci & (loc' & Hin & Hci)%list_elem_of_omap & <-).
  destruct honor.
  - by rewrite (dur_change_at_location _ _ _ _ _ Hci).
  - by rewrite (eph_change_at_location _ _ _ _ Hci).
Qed.

Lemma at_location_ephemeral_delta honor previous current exception_map loc :
  at_location loc (ephemeral_delta honor previous current exception_map)
  → loc ∈ compared_locations previous current exception_map.
Proof.
  unfold at_location, ephemeral_delta.
  destruct honor; [|by intros (? & []%elem_of_nil & _)].
  intros (ci & (loc' & Hin & Hci)%list_elem_of_omap & <-).
  by rewrite (eph_change_at_location _ _ _ _ Hci).
Qed.

Lemma NoDup_compared_locations previous current exception_map :
  NoDup (compared_locations previous current exception_map).
Proof. apply NoDup_filter, NoDup_elements. Qed.

Lemma filter_ephemeral_paths_same paths (cfg : Config) :
  (filter_ephemeral_paths paths (cfg, cfg)).1
  = (filter_ephemeral_paths paths (cfg, cfg)).2.
Proof.
  unfold filter_ephemeral_paths. revert cfg.
  induction paths as [|path paths IH]; intros cfg; [done|]. simpl. apply IH.
Qed.

Lemma with_config_config item : with_config item (config item) = item.
Proof. by destruct item. Qed.

Lemma dur_change_at_no_paths prev_map curr_map loc :
  dur_change_at [] prev_map curr_map loc = eph_change_at prev_map curr_map loc.
Proof.
  unfold dur_change_at, eph_change_at.
  by destruct (prev_map !! loc) as [p|], (curr_map !! loc) as [c|].
Qed.

(** X7.  When the two snapshots hold the same locations and, at each of
    them, equal configurations, a run of the three passes reports nothing:
    the four buckets are as they were, whatever the other fields of the
    items, the exception map and the ephemeral settings. *)
Theorem unchanged_snapshots_report_nothing
    self previous current exception_map :
  (∀ loc, loc ∈ location <$> previous ↔ loc ∈ location <$> current) →
  (∀ loc prev_item curr_item,
     dict_by_location previous !! loc = Some prev_item →
     dict_by_location current !! loc = Some curr_item →
     config prev_item = config curr_item) →
  buckets (diff_passes self previous current exception_map) = buckets self.
Proof.
  intros Hlocs Hcfg. rewrite diff_passes_appends. unfold buckets; simpl.
  assert (created_delta previous current = []) as ->.
  { unfold created_delta, created_locations.
    replace (dom (dict_by_location current) ∖ dom (dict_by_location previous))
      with (∅ : gset Location); [by rewrite elements_empty|].
    apply set_eq. intros loc.
    rewrite elem_of_difference, !dict_by_location_dom, elem_of_empty.
    pose proof (Hlocs loc). tauto. }
  assert (deleted_delta previous current exception_map = []) as ->.
  { unfold deleted_delta, deleted_locations.
    replace (dom (dict_by_location previous) ∖ dom (dict_by_location current))
      with (∅ : gset Location); [by rewrite elements_empty|].
    apply set_eq. intros loc.
    rewrite elem_of_difference, !dict_by_location_dom, elem_of_empty.
    pose proof (Hlocs loc). tauto. }
  assert (∀ loc, eph_change_at (dict_by_location previous)
                   (dict_by_location current) loc = None) as Heph.
  { intros loc. unfold eph_change_at.
    destruct (dict_by_location previous !! loc) as [p|] eqn:Hp; [|done].
    destruct (dict_by_location current !! loc) as [c|] eqn:Hc; [|done].
    unfold change_item_if_differs.
    by rewrite (Hcfg _ _ _ Hp Hc), decide_True. }
  assert (∀ paths loc, dur_change_at paths (dict_by_location previous)
                         (dict_by_location current) loc = None) as Hdur.
  { intros paths loc. unfold dur_change_at.
    destruct (dict_by_location previous !! loc) as [p|] eqn:Hp; [|done].
    destruct (dict_by_location current !! loc) as [c|] eqn:Hc; [|done].
    unfold change_item_if_differs. simpl.
    rewrite (Hcfg _ _ _ Hp Hc), filter_ephemeral_paths_same.
    by rewrite decide_True. }
  assert (changed_delta (honor_ephemerals self) (ephemeral_paths self)
            previous current exception_map = []) as ->.
  { unfold changed_delta. apply omap_all_None. intros loc _.
    destruct (honor_ephemerals self); [apply Hdur|apply Heph]. }
  assert (ephemeral_delta (honor_ephemerals self) previous current
            exception_map = []) as ->.
  { unfold ephemeral_delta. destruct (honor_ephemerals self); [|done].
    apply omap_all_None. intros loc _. apply Heph. }
  by rewrite !app_nil_r.
Qed.

(** X8.  A run of the three passes on empty buckets reports every location
    at most once in each bucket, also when a snapshot lists a location
    several times. *)
Theorem one_record_per_location self previous current exception_map :
  buckets self = ([], [], [], []) →
  let self' := diff_passes self previous current exception_map in
  NoDup (location <$> created_items self')
  ∧ NoDup (location <$> deleted_items self')
  ∧ NoDup (location <$> changed_items self')
  ∧ NoDup (location <$> ephemeral_items self').
Proof.
  intros [= Hc Hd Hm He]. simpl. rewrite diff_passes_appends; simpl.
  rewrite Hc, Hd, Hm, He; simpl.
  split; [|split; [|split]].
  - rewrite created_delta_omap. apply NoDup_omap_location.
    + intros loc ci Hci. apply bind_Some in Hci as (item & Hitem & Hfrom).
      apply from_items_location in Hfrom.
      by destruct (dict_by_location_lookup _ _ _ Hitem) as [<- _].
    + apply NoDup_elements.
  - rewrite deleted_delta_omap. apply NoDup_omap_location.
    + intros loc ci Hci. apply bind_Some in Hci as (item & Hitem & Hfrom).
      apply from_items_location in Hfrom.
      by destruct (dict_by_location_lookup _ _ _ Hitem) as [<- _].
    + apply NoDup_filter, NoDup_elements.
  - unfold changed_delta. apply NoDup_omap_location.
    + destruct (honor_ephemerals self).
      * apply dur_change_at_location.
      * apply eph_change_at_location.
    + apply NoDup_compared_locations.
  - unfold ephemeral_delta. destruct (honor_ephemerals self); [|constructor].
    apply NoDup_omap_location.
    + apply eph_change_at_location.
    + apply NoDup_compared_locations.
Qed.

(** X9.  A run of the three passes on empty buckets sorts every location
    into at most one kind of report: a location reported created is not
    reported deleted, changed or ephemeral, and a location reported deleted
    is not reported changed or ephemeral. *)
Theorem reports_are_exclusive self previous current exception_map loc :
  buckets self = ([], [], [], []) →
  let self' := diff_passes self previous current exception_map in
  (at_location loc (created_items self') →
   ¬ at_location loc (deleted_items self')
   ∧ ¬ at_location loc (changed_items self')
   ∧ ¬ at_location loc (ephemeral_items self'))
  ∧ (at_location loc (deleted_items self') →
     ¬ at_location loc (changed_items self')
     ∧ ¬ at_location loc (ephemeral_items self')).
Proof.
  intros [= Hc Hd Hm He]. simpl. rewrite diff_passes_appends; simpl.
  rewrite Hc, Hd, Hm, He; simpl. split.
  - intros [_ Hprev]%at_location_created_delta. split; [|split].
    + intros ([? ?] & _)%at_location_deleted_delta. congruence.
    + intros (_ & _ & [? ?])%at_location_changed_delta%elem_of_compared_locations.
      congruence.
    + intros (_ & _ & [? ?])%at_location_ephemeral_delta%elem_of_compared_locations.
      congruence.
  - intros (_ & Hcur & _)%at_location_deleted_delta. split.
    + intros (_ & [? ?] & _)%at_location_changed_delta%elem_of_compared_locations.
      congruence.
    + intros (_ & [? ?] & _)%at_location_ephemeral_delta%elem_of_compared_locations.
      congruence.
Qed.

Lemma change_item_if_differs_record old_item new_item ci :
  change_item_if_differs old_item new_item = Some ci →
  from_items (Some old_item) (Some new_item) = Some ci.
Proof. unfold change_item_if_differs. by case_decide. Qed.

Lemma changed_delta_record honor paths previous current exception_map ci :
  ci ∈ changed_delta honor paths previous current exception_map →
  ∃ old_item new_item,
    from_items (Some old_item) (Some new_item) = Some ci.
Proof.
  unfold changed_delta. intros (loc & _ & Hci)%list_elem_of_omap.
  destruct honor.
  - unfold dur_change_at in Hci.
    destruct (dict_by_location previous !! loc) as [p|]; [|done].
    destruct (dict_by_location current !! loc) as [c|]; [|done].
    apply change_item_if_differs_record in Hci. eauto.
  - unfold eph_change_at in Hci.
    destruct (dict_by_location previous !! loc) as [p|]; [|done].
    destruct (dict_by_location current !! loc) as [c|]; [|done].
    apply change_item_if_differs_record in Hci. eauto.
Qed.

Lemma ephemeral_delta_record honor previous current exception_map ci :
  ci ∈ ephemeral_delta honor previous current exception_map →
  ∃ old_item new_item,
    from_items (Some old_item) (Some new_item) = Some ci.
Proof.
  unfold ephemeral_delta. destruct honor; [|by intros ?%elem_of_nil].
  intros (loc & _ & Hci)%list_elem_of_omap.
  unfold eph_change_at in Hci.
  destruct (dict_by_location previous !! loc) as [p|]; [|done].
  destruct (dict_by_location current !! loc) as [c|]; [|done].
  apply change_item_if_differs_record in Hci. eauto.
Qed.

(** X10.  The records a run on empty buckets reports have the shape their
    bucket implies: a deleted record is inactive with [{}] as new
    configuration, a created record is active with [{}] as old
    configuration, changed and ephemeral records are active; and every
    record starts with no new issue found and empty lists of confirmed
    issues, whatever the items it was built from carried. *)
Theorem reported_records_shape self previous current exception_map :
  buckets self = ([], [], [], []) →
  let self' := diff_passes self previous current exception_map in
  Forall (λ ci, active ci = false ∧ new_config ci = empty_config)
    (deleted_items self')
  ∧ Forall (λ ci, active ci = true ∧ old_config ci = empty_config)
      (created_items self')
  ∧ Forall (λ ci, active ci = true)
      (changed_items self' ++ ephemeral_items self')
  ∧ Forall (λ ci, found_new_issue ci = false
                  ∧ confirmed_new_issues ci = []
                  ∧ confirmed_fixed_issues ci = []
                  ∧ confirmed_existing_issues ci = [])
      (created_items self' ++ deleted_items self' ++ changed_items self'
       ++ ephemeral_items self').
Proof.
  intros [= Hc Hd Hm He]. simpl. rewrite diff_passes_appends; simpl.
  rewrite Hc, Hd, Hm, He; simpl.
  assert (∀ ci, ci ∈ deleted_delta previous current exception_map →
                ∃ item, from_items (Some item) None = Some ci) as Hdeleted.
  { intros ci (item & ? & _)%elem_of_deleted_delta. eauto. }
  assert (∀ ci, ci ∈ created_delta previous current →
                ∃ item, from_items None (Some item) = Some ci) as Hcreated.
  { intros ci (item & ? & _)%elem_of_created_delta. eauto. }
  split; [|split; [|split]]; rewrite Forall_forall.
  - intros ci (item & [= <-])%Hdeleted. done.
  - intros ci (item & [= <-])%Hcreated. done.
  - intros ci [Hci | Hci]%elem_of_app.
    + apply changed_delta_record in Hci as (o & n & [= <-]). done.
    + apply ephemeral_delta_record in Hci as (o & n & [= <-]). done.
  - intros ci [Hci | [Hci | [Hci | Hci]%elem_of_app]%elem_of_app]%elem_of_app.
    + apply Hcreated in Hci as (item & [= <-]). done.
    + apply Hdeleted in Hci as (item & [= <-]). done.
    + apply changed_delta_record in Hci as (o & n & [= <-]). done.
    + apply ephemeral_delta_record in Hci as (o & n & [= <-]). done.
Qed.

(** X11.  When a snapshot lists a location several times, the last item
    listed is the one that counts: [find_new] on a [current] that ends
    with [item], whose location is not in [previous], reports at that
    location the record of [item] and no other. *)
Theorem last_item_at_location_wins self previous items item ci :
  created_items self = [] →
  location item ∉ location <$> previous →
  ci ∈ created_items (find_new self previous (items ++ [item]))
  ∧ location ci = location item
  ↔ from_items None (Some item) = Some ci.
Proof.
  intros Hempty Hprev. rewrite find_new_appends.
  unfold set_created_items. cbn [created_items]. rewrite Hempty, app_nil_l.
  assert (dict_by_location (items ++ [item]) !! (location item) = Some item)
    as Hlast.
  { by rewrite dict_by_location_snoc, lookup_insert_eq. }
  rewrite elem_of_created_delta. split.
  - intros [(item' & Hfrom & Hitem' & _) Hloc].
    pose proof (from_items_location _ _ _ Hfrom) as Hci. simpl in Hci.
    rewrite <-Hci, Hloc, Hlast in Hitem'. injection Hitem' as <-.
    exact Hfrom.
  - intros Hfrom. split.
    + exists item. split; [done|]. split; [done|].
      by rewrite dict_by_location_dom.
    + by apply from_items_location in Hfrom.
Qed.

(** X12.  [find_modified] does not compare a location the exception map
    covers: it adds no record at that location to the changed bucket nor to
    the ephemeral bucket, whatever the two configurations are. *)
Theorem covered_location_not_compared
    self previous current exception_map loc :
  covered exception_map loc →
  ¬ at_location loc (changed_items self) →
  ¬ at_location loc (ephemeral_items self) →
  let self' := find_modified self previous current exception_map in
  ¬ at_location loc (changed_items self')
  ∧ ¬ at_location loc (ephemeral_items self').
Proof.
  intros Hcov%locationInExceptionMap_covered Hm He. simpl.
  rewrite find_modified_appends; simpl.
  assert (loc ∉ compared_locations previous current exception_map) as Hnot.
  { intros [? _]%elem_of_compared_locations. congruence. }
  split; intros (ci & [Hci | Hci]%elem_of_app & Hloc).
  - apply Hm. by exists ci.
  - apply Hnot. eapply at_location_changed_delta. by exists ci.
  - apply He. by exists ci.
  - apply Hnot. eapply at_location_ephemeral_delta. by exists ci.
Qed.

(** X13.  With [honor_ephemerals] set and no ephemeral path declared, the
    filter deletes nothing: [find_modified] appends the same records, in
    the same order, to the changed and to the ephemeral bucket, whatever
    the two buckets held before. *)
Theorem honoring_without_paths self previous current exception_map :
  honor_ephemerals self = true →
  ephemeral_paths self = [] →
  let self' := find_modified self previous current exception_map in
  ∃ records,
    changed_items self' = changed_items self ++ records
    ∧ ephemeral_items self' = ephemeral_items self ++ records.
Proof.
  intros Hhonor Hpaths. simpl. rewrite find_modified_appends; simpl.
  rewrite Hhonor, Hpaths.
  exists (ephemeral_delta true previous current exception_map).
  split; [|done]. f_equal.
Qed.

(** X14.  The three passes only append to the buckets: the index, the
    accounts, the datastore, the rate-limit delay and the ephemeral
    settings are left as they were, no bucket loses a record, and without
    [honor_ephemerals] the ephemeral bucket is not touched. *)
Theorem diff_passes_only_append self previous current exception_map :
  let self' := diff_passes self previous current exception_map in
  (w_index self' = w_index self ∧ accounts self' = accounts self
   ∧ datastore self' = datastore self
   ∧ rate_limit_delay self' = rate_limit_delay self
   ∧ honor_ephemerals self' = honor_ephemerals self
   ∧ ephemeral_paths self' = ephemeral_paths self)
  ∧ (created_items self `prefix_of` created_items self'
     ∧ deleted_items self `prefix_of` deleted_items self'
     ∧ changed_items self `prefix_of` changed_items self'
     ∧ ephemeral_items self `prefix_of` ephemeral_items self')
  ∧ (honor_ephemerals self = false →
     ephemeral_items self' = ephemeral_items self).
Proof.
  simpl. rewrite diff_passes_appends; simpl. split; [done|]. split.
  - repeat split; by eexists.
  - intros ->. unfold ephemeral_delta. by rewrite app_nil_r.
Qed.

(** X15.  With [honor_ephemerals] set, a resource present in both
    snapshots at a location the exception map does not cover, whose
    configurations still differ once the ephemeral paths are deleted, gets
    a record in the changed bucket; that record carries the filtered
    configurations, not the original ones.  When the unfiltered
    configurations differ as well, the ephemeral bucket gets the record
    with the original configurations. *)
Theorem durable_change_buckets
    self previous current exception_map loc prev_item curr_item :
  dict_by_location previous !! loc = Some prev_item →
  dict_by_location current !! loc = Some curr_item →
  locationInExceptionMap loc exception_map = false →
  honor_ephemerals self = true →
  let cfgs := filter_ephemeral_paths (ephemeral_paths self)
                (config prev_item, config curr_item) in
  sub_dict cfgs.1 ≠ sub_dict cfgs.2 →
  let self' := find_modified self previous current exception_map in
  (∃ ci, ci ∈ changed_items self' ∧ location ci = loc
     ∧ old_config ci = cfgs.1 ∧ new_config ci = cfgs.2)
  ∧ (sub_dict (config prev_item) ≠ sub_dict (config curr_item) →
     ∃ ci, ci ∈ ephemeral_items self' ∧ location ci = loc
       ∧ old_config ci = config prev_item
       ∧ new_config ci = config curr_item).
Proof.
  intros Hprev Hcur Hex Hhonor cfgs Hdur. simpl.
  rewrite find_modified_appends; simpl. rewrite Hhonor.
  assert (loc ∈ compared_locations previous current exception_map) as Hin.
  { apply elem_of_compared_locations. eauto. }
  destruct (dict_by_location_lookup _ _ _ Hcur) as [Hloc _].
  split.
  - eexists. split; [|split; [|split]].
    + apply elem_of_app. right. unfold changed_delta.
      apply list_elem_of_omap. exists loc. split; [done|].
      unfold dur_change_at. rewrite Hprev, Hcur.
      unfold change_item_if_differs. rewrite decide_False by exact Hdur.
      reflexivity.
    + exact Hloc.
    + reflexivity.
    + reflexivity.
  - intros Heph. eexists. split; [|split; [|split]].
    + apply elem_of_app. right. unfold ephemeral_delta.
      apply list_elem_of_omap. exists loc. split; [done|].
      unfold eph_change_at. rewrite Hprev, Hcur.
      unfold change_item_if_differs. rewrite decide_False by exact Heph.
      reflexivity.
    + exact Hloc.
    + reflexivity.
    + reflexivity.
Qed.

(** ** The previous snapshot *)

Lemma read_previous_items_bind self :
  read_previous_items self
  = accounts self ≫= λ account,
      (λ row, ChangeItem_init (w_index self) (item_region row)
                (item_account_name row) (item_name row) empty_config
                (revision_config row) false [])
      <$> get_all_ctype_filtered (datastore self) (w_index self) account
            false.
Proof.
  unfold read_previous_items.
  set (mk := λ row : StoredItem, ChangeItem_init _ _ _ _ _ _ _ _).
  assert (∀ rows acc,
            foldl (λ prev_list row, prev_list ++ [mk row]) acc rows
            = acc ++ (mk <$> rows)) as Hinner.
  { induction rows as [|row rows IH]; intros acc; simpl.
    - by rewrite app_nil_r.
    - by rewrite IH, <-app_assoc. }
  assert (∀ accts acc,
            foldl (λ prev_list account,
                     foldl (λ prev_list row, prev_list ++ [mk row])
                       prev_list
                       (get_all_ctype_filtered (datastore self)
                          (w_index self) account false))
              acc accts
            = acc ++ (accts ≫= λ account,
                        mk <$> get_all_ctype_filtered (datastore self)
                                 (w_index self) account false)) as Houter.
  { induction accts as [|account accts IH]; intros acc; csimpl.
    - by rewrite app_nil_r.
    - by rewrite IH, Hinner, <-app_assoc. }
  apply (Houter _ []).
Qed.

(** X16.  [read_previous_items] returns one item per row the datastore
    holds for the watcher's accounts, in account order; every such item
    carries the watcher's own index, is inactive, has no audit issue and
    [{}] as old configuration. *)
Theorem read_previous_items_shape self :
  length (read_previous_items self)
  = sum_list ((λ account,
                 length (get_all_ctype_filtered (datastore self)
                           (w_index self) account false))
              <$> accounts self)
  ∧ Forall (λ item, index item = w_index self ∧ active item = false
                    ∧ audit_issues item = []
                    ∧ old_config item = empty_config)
      (read_previous_items self).
Proof.
  rewrite read_previous_items_bind. split.
  - induction (accounts self) as [|account accts IH]; [done|]. csimpl.
    by rewrite length_app, length_fmap, IH.
  - apply Forall_forall. intros item.
    rewrite list_elem_of_bind.
    intros (account & (row & -> & _)%list_elem_of_fmap & _). done.
Qed.

(** X17.  On a first run, when the datastore holds no row for any of the
    watcher's accounts, [find_changes] reports nothing deleted, changed or
    ephemeral, and reports every location of the current snapshot as
    created. *)
Theorem first_run_creates_everything self current exception_map loc :
  (∀ account, account ∈ accounts self →
     get_all_ctype_filtered (datastore self) (w_index self) account false
     = []) →
  let self' := find_changes self current exception_map in
  deleted_items self' = deleted_items self
  ∧ changed_items self' = changed_items self
  ∧ ephemeral_items self' = ephemeral_items self
  ∧ (loc ∈ location <$> current → at_location loc (created_items self')).
Proof.
  intros Hrows. simpl. rewrite find_changes_diff_passes.
  assert (read_previous_items self = []) as ->.
  { rewrite read_previous_items_bind.
    induction (accounts self) as [|account accts IH]; [done|]. csimpl.
    rewrite Hrows by left. simpl. apply IH.
    intros ? ?. apply Hrows. by right. }
  rewrite diff_passes_appends; simpl.
  assert (compared_locations [] current exception_map = []) as Hcompared.
  { apply compared_locations_disjoint. by intros ? ?%elem_of_nil. }
  split; [|split; [|split]].
  - unfold deleted_delta, deleted_locations.
    replace (dom (dict_by_location []) ∖ dom (dict_by_location current))
      with (∅ : gset Location); [by rewrite elements_empty, app_nil_r|].
    apply set_eq. intros l.
    rewrite elem_of_difference, !dict_by_location_dom, elem_of_empty.
    simpl. rewrite elem_of_nil. tauto.
  - unfold changed_delta. by rewrite Hcompared, app_nil_r.
  - unfold ephemeral_delta. rewrite Hcompared.
    destruct (honor_ephemerals self); by rewrite app_nil_r.
  - intros Hloc. destruct (proj2 (at_location_created_delta [] current loc))
      as (ci & Hci & Hcloc).
    + split; [by apply elem_of_dom, dict_by_location_dom|done].
    + exists ci. split; [|done]. apply elem_of_app. by right.
Qed.

(** ** More on the issue flags *)

Lemma existsb_Permutation {A} (f : A → bool) (l1 l2 : list A) :
  l1 ≡ₚ l2 → existsb f l1 = existsb f l2.
Proof.
  induction 1 as [|x l1 l2 _ IH|x y l|l1 l2 l3 _ IH1 _ IH2]; simpl.
  - done.
  - by rewrite IH.
  - by destruct (f x), (f y).
  - by rewrite IH1.
Qed.

Lemma existsb_impl {A} (f g : A → bool) (l : list A) :
  (∀ x, f x = true → g x = true) → existsb f l = true → existsb g l = true.
Proof.
  intros Hfg. induction l as [|x l IH]; simpl; [done|].
  rewrite !orb_true_iff. intros [?|?]; [left|right]; auto.
Qed.

(** X18.  The three flags of [issues_found] are ordered: a new issue is
    always reported as an unjustified issue, and an unjustified issue is
    always reported as an issue. *)
Theorem issues_found_flag_order items :
  let flags := issues_found_of items in
  (flags.1.2 = true → flags.2 = true) ∧ (flags.2 = true → flags.1.1 = true).
Proof.
  unfold issues_found_of. rewrite issues_found_loop_flags. simpl. split.
  - apply existsb_impl. intros item.
    unfold raises_new_issue, raises_unjustified_issue.
    by destruct (truthy _), (found_new_issue item).
  - apply existsb_impl. intros item.
    unfold raises_unjustified_issue, has_audit_issues.
    by destruct (truthy _).
Qed.

(** X19.  The flags of [issues_found] do not depend on the order in which
    the records are scanned, although the scan stops at the first new
    issue. *)
Theorem issues_found_any_order items items' :
  items ≡ₚ items' → issues_found_of items = issues_found_of items'.
Proof.
  intros Hperm. unfold issues_found_of. rewrite !issues_found_loop_flags.
  simpl. by rewrite !(existsb_Permutation _ _ _ Hperm).
Qed.

(** X20.  Scanning two sequences of records one after the other gives the
    flags of the two scans or-ed together; so [issues_found] on a watcher
    is the scan of its created bucket or-ed with the scan of its changed
    bucket, and the deleted and ephemeral buckets play no part. *)
Theorem issues_found_of_app items1 items2 self :
  issues_found_of (items1 ++ items2)
  = flags_or (issues_found_of items1) (issues_found_of items2)
  ∧ issues_found self
    = flags_or (issues_found_of (created_items self))
        (issues_found_of (changed_items self)).
Proof.
  unfold issues_found, issues_found_of.
  rewrite !issues_found_loop_flags, !existsb_app. done.
Qed.

(** ** More on saving *)

(** X21.  [save] leaves the four buckets as they are, so saving twice
    passes every record of the cycle to [Datastore.store] twice, in the
    same order. *)
Theorem save_repeats self :
  let changeset := if honor_ephemerals self then ephemeral_items self
                   else changed_items self in
  let calls := store_args
               <$> (created_items self ++ deleted_items self ++ changeset) in
  buckets (save self) = buckets self
  ∧ stored (datastore (save (save self)))
    = stored (datastore self) ++ calls ++ calls.
Proof.
  split; [done|]. unfold save, ephemerals_skipped; simpl.
  rewrite !save_all_stored, !fmap_app. by rewrite <-!app_assoc.
Qed.

(** X22.  A resource that was recorded earlier, is absent from the current
    snapshot and is not covered by the exception map is stored by the
    cycle (the three passes, then [save]) as inactive with [{}] as
    configuration, under its own index, region, account and name. *)
Theorem deleted_resource_stored_inactive
    self previous current exception_map item :
  dict_by_location previous !! (location item) = Some item →
  location item ∉ location <$> current →
  locationInExceptionMap (location item) exception_map = false →
  let self' := save (diff_passes self previous current exception_map) in
  mkStoreCall (index item) (region item) (account item) (name item) false
    empty_config (audit_issues item)
  ∈ stored (datastore self').
Proof.
  intros Hitem Hcur Hex. simpl. unfold save; simpl.
  rewrite !save_all_stored, diff_passes_appends; simpl.
  apply elem_of_app. left. apply elem_of_app. right.
  rewrite fmap_app. apply elem_of_app. right. rewrite fmap_app.
  apply elem_of_app. right.
  apply list_elem_of_fmap.
  exists (ChangeItem_init (index item) (region item) (account item)
            (name item) (config item) empty_config false (audit_issues item)).
  split; [|apply elem_of_deleted_delta].
  - reflexivity.
  - exists item. split; [reflexivity|]. split; [done|]. split; [|done].
    by rewrite dict_by_location_dom.
Qed.

(** ** More on the retry loop *)

Lemma retry_loop_first_other {A} (failures rest : list (outcome A))
    (response : outcome A) self attempts trace :
  Forall (λ response, is_throttled response = true) failures →
  is_throttled response = false →
  retry_loop self (failures ++ response :: rest) attempts trace
  = retry_loop self (failures ++ [response]) attempts trace
  ∧ (retry_loop self (failures ++ [response]) attempts trace).2
    = Some response.
Proof.
  intros Hthrottled Hother. revert self attempts trace.
  induction Hthrottled as [|failure failures Hfailure _ IH];
    intros self attempts trace.
  - simpl. destruct response as [retval|e]; [done|].
    simpl in Hother. by rewrite Hother.
  - destruct failure as [retval|e]; [done|]. simpl in Hfailure.
    cbn [app retry_loop]. rewrite Hfailure. apply IH.
Qed.

(** X23.  The call ends at the first outcome that is not a throttling
    error: a returned value or any other exception.  That outcome is the
    result, and what the wrapped function would have done afterwards plays
    no part. *)
Theorem first_other_outcome_decides {A} (failures rest : list (outcome A))
    (response : outcome A) self :
  Forall (λ response, is_throttled response = true) failures →
  is_throttled response = false →
  wrap_aws_rate_limited_call self (failures ++ response :: rest)
  = wrap_aws_rate_limited_call self (failures ++ [response])
  ∧ (wrap_aws_rate_limited_call self (failures ++ [response])).2
    = Some response.
Proof. intros. by apply retry_loop_first_other. Qed.

(** X24.  An exception that is not a throttling error is raised again at
    once and leaves the delay where the throttling errors before it had
    driven it; the delay is not reset, so the next call on the same watcher
    starts by sleeping that long. *)
Theorem other_error_keeps_delay {A} (failures : list (outcome A))
    (e : aws_exception) (next : outcome A) self :
  rate_limit_delay self = 0 →
  Forall (λ response, is_throttled response = true) failures →
  is_throttling e = false →
  let n := length failures in
  let raised := wrap_aws_rate_limited_call self (failures ++ [Raises e]) in
  raised.2 = Some (Raises e)
  ∧ rate_limit_delay raised.1.1 = backoff_wait n
  ∧ waits raised.1.2 = backoff_wait <$> seq 0 (S n)
  ∧ waits (wrap_aws_rate_limited_call raised.1.1 [next]).1.2
    = [backoff_wait n].
Proof.
  intros Hfresh Hthrottled Hother. unfold wrap_aws_rate_limited_call.
  cbn zeta.
  destruct (retry_loop_throttled failures [Raises e] self 0 0 Hfresh
              Hthrottled) as (Hself & Hwaits & Hresult).
  rewrite Hself, Hwaits, Hresult. clear Hself Hwaits Hresult.
  rewrite seq_S, fmap_app. simpl. rewrite Hother. simpl.
  pose proof (backoff_wait_nonneg (length failures)) as Hnonneg.
  assert (∀ a : Z,
            waits ((if 0 <? backoff_wait (length failures)
                    then [Sleep (backoff_wait (length failures))] else [])
                   ++ [Call a])
            = [backoff_wait (length failures)]) as Hwait.
  { intros a. by rewrite waits_attempt. }
  split; [done|]. split; [done|]. split.
  - f_equal. rewrite <-(Hwait (0 + Z.of_nat (length failures) + 1)).
    by destruct (0 <? backoff_wait (length failures)).
  - rewrite <-(Hwait (0 + 1)).
    destruct next as [retval|e']; [|destruct (is_throttling e')];
      by destruct (0 <? backoff_wait (length failures)).
Qed.

Lemma increase_delay_backoff_delay self :
  backoff_delay (rate_limit_delay self) →
  backoff_delay (rate_limit_delay (increase_delay self)).
Proof.
  unfold backoff_delay, increase_delay.
  intros [H | [H | [H | H]]]; rewrite H; simpl; auto.
Qed.

Lemma sleeps_app (t1 t2 : list event) : sleeps (t1 ++ t2) = sleeps t1 ++ sleeps t2.
Proof. apply omap_app. Qed.

Lemma retry_loop_bounded {A} (awsfunc : list (outcome A)) self attempts :
  backoff_delay (rate_limit_delay self) →
  let r := retry_loop self awsfunc attempts [] in
  backoff_delay (rate_limit_delay r.1.1)
  ∧ Forall (λ seconds, 0 < seconds ≤ 4) (sleeps r.1.2)
  ∧ (length (calls r.1.2) ≤ length awsfunc)%nat.
Proof.
  revert self attempts.
  induction awsfunc as [|response awsfunc IH]; intros self attempts Hdelay.
  - simpl. split; [done|]. split; [constructor|done].
  - assert (Forall (λ seconds, 0 < seconds ≤ 4)
              (sleeps ((if 0 <? rate_limit_delay self
                        then [] ++ [Sleep (rate_limit_delay self)] else [])
                       ++ [Call (attempts + 1)]))
            ∧ length (calls ((if 0 <? rate_limit_delay self
                              then [] ++ [Sleep (rate_limit_delay self)]
                              else [])
                             ++ [Call (attempts + 1)])) = 1%nat) as [Hs Hc].
    { destruct (0 <? rate_limit_delay self) eqn:Hpos; simpl.
      - split; [|done]. repeat constructor.
        + by apply Z.ltb_lt.
        + unfold backoff_delay in Hdelay. lia.
      - split; [constructor|done]. }
    cbn [retry_loop]. destruct response as [retval|e].
    + cbn zeta. cbn [fst snd].
      split; [|split; [exact Hs|rewrite Hc; simpl; lia]].
      destruct (0 <? rate_limit_delay self); [by left|done].
    + destruct (is_throttling e).
      * rewrite retry_loop_trace_prefix. cbn zeta. cbn [fst snd].
        destruct (IH (increase_delay self) (attempts + 1)
                    (increase_delay_backoff_delay _ Hdelay))
          as (Hd' & Hs' & Hc').
        split; [done|]. split.
        -- rewrite sleeps_app. by apply Forall_app.
        -- unfold calls in *. rewrite omap_app, length_app, Hc.
           simpl length. lia.
      * cbn [fst snd]. split; [done|].
        split; [exact Hs|rewrite Hc; simpl; lia].
Qed.

(** X25.  A watcher whose delay is 0, 1, 2 or 4 keeps such a delay through
    any call, whatever the wrapped function does; the loop never sleeps
    longer than 4 at a time, never calls [time.sleep] with 0, and calls the
    wrapped function at most once per outcome. *)
Theorem delay_stays_bounded {A} (awsfunc : list (outcome A)) self :
  backoff_delay (rate_limit_delay self) →
  let r := wrap_aws_rate_limited_call self awsfunc in
  backoff_delay (rate_limit_delay r.1.1)
  ∧ Forall (λ seconds, 0 < seconds ≤ 4) (sleeps r.1.2)
  ∧ (length (calls r.1.2) ≤ length awsfunc)%nat.
Proof. intros. by apply retry_loop_bounded. Qed.

(** ** The latest configuration *)

(** X26.  [get_latest_config] fails (the [IndexError] of [timestamps[-1]])
    exactly on the empty dictionary; on any other dictionary it returns
    the configuration stored under the greatest timestamp. *)
Theorem get_latest_config_greatest {K V} `{Countable K} (before : relation K)
    `{∀ x y, Decision (before x y)} `{!Transitive before, !Total before}
    (config_dict : gmap K V) :
  (get_latest_config before config_dict = None ↔ config_dict = ∅)
  ∧ (∀ cfg, get_latest_config before config_dict = Some cfg →
       ∃ latest, config_dict !! latest = Some cfg
         ∧ ∀ k, is_Some (config_dict !! k) → before k latest).
Proof.
  unfold get_latest_config.
  set (timestamps := merge_sort before (map_to_list config_dict).*1).
  assert (timestamps ≡ₚ (map_to_list config_dict).*1) as Hperm
    by apply merge_sort_Permutation.
  assert (∀ k, k ∈ timestamps ↔ is_Some (config_dict !! k)) as Hkeys.
  { intros k. rewrite Hperm, list_elem_of_fmap. split.
    - intros [[k' v] [-> Hkv%elem_of_map_to_list]]. by exists v.
    - intros [v Hv]. exists (k, v). by rewrite elem_of_map_to_list. }
  destruct (last timestamps) as [latest|] eqn:Hlast.
  - apply last_Some in Hlast as [earlier Hts].
    assert (is_Some (config_dict !! latest)) as [cfg Hcfg].
    { apply Hkeys. rewrite Hts. apply elem_of_app. right. by left. }
    rewrite Hcfg. split.
    + split; [done|]. intros ->. by rewrite lookup_empty in Hcfg.
    + intros ? [= <-]. exists latest. split; [done|].
      intros k Hk%Hkeys. rewrite Hts in Hk.
      assert (StronglySorted before (earlier ++ [latest])) as Hsorted.
      { rewrite <-Hts. by apply StronglySorted_merge_sort. }
      apply elem_of_app in Hk as [Hk | ->%list_elem_of_singleton].
      * eapply StronglySorted_app_1_elem_of; [done..|by left].
      * by destruct (total before latest latest).
  - split; [|done]. split; [|done]. intros _.
    apply last_None in Hlast. rewrite Hlast in Hperm.
    symmetry in Hperm. apply Permutation_nil_r in Hperm.
    apply fmap_nil_inv in Hperm. by apply map_to_list_empty_iff.
Qed.

Lemma at_location_created_after self previous current exception_map loc :
  is_Some (dict_by_location current !! loc) →
  dict_by_location previous !! loc = None →
  at_location loc
    (created_items (diff_passes self previous current exception_map)).
Proof.
  intros Hcur Hprev. rewrite diff_passes_appends; simpl.
  destruct (proj2 (at_location_created_delta previous current loc))
    as (ci & Hci & Hloc); [done|].
  exists ci. split; [|done]. apply elem_of_app. by right.
Qed.

Lemma at_location_deleted_after self previous current exception_map loc :
  is_Some (dict_by_location previous !! loc) →
  dict_by_location current !! loc = None →
  locationInExceptionMap loc exception_map = false →
  at_location loc
    (deleted_items (diff_passes self previous current exception_map)).
Proof.
  intros Hprev Hcur Hex. rewrite diff_passes_appends; simpl.
  destruct (proj2 (at_location_deleted_delta previous current exception_map
                     loc)) as (ci & Hci & Hloc); [done|].
  exists ci. split; [|done]. apply elem_of_app. by right.
Qed.

(** ** The bucket tests of the templates *)

Lemma length_positive_truthy {A} (l : list A) :
  bool_decide (0 < length l)%nat = truthy l.
Proof.
  destruct l; [done|].
  apply bool_decide_eq_true_2. simpl. lia.
Qed.

(** X27.  [is_changed] agrees with the three bucket tests the templates
    use: the value it returns is truthy exactly when [deleted()],
    [created()] or [changed()] is true. *)
Theorem is_changed_agrees_with_bucket_tests self :
  truthy (is_changed self) = deleted self || created self || changed self.
Proof.
  unfold is_changed, deleted, created, changed.
  by rewrite !truthy_py_or, !length_positive_truthy.
Qed.

End WatcherFacts.

(** * Concrete scenarios *)

(** C1 at two security groups recorded earlier and a third, new one. *)
Lemma disjoint_snapshots_diff_witness :
  let previous := [sg "sg-1" cfg_poll1; sg "sg-2" cfg_poll1] in
  let current := [sg "sg-3" cfg_poll1] in
  let self' := diff_passes fresh previous current ∅ in
  Some <$> created_items self'
    ≡ₚ (λ item, from_items None (Some item)) <$> current
  ∧ Some <$> deleted_items self'
    ≡ₚ (λ item, from_items (Some item) None) <$> previous
  ∧ changed_items self' = [].
Proof.
  apply (disjoint_snapshots_diff fresh
           [sg "sg-1" cfg_poll1; sg "sg-2" cfg_poll1] [sg "sg-3" cfg_poll1]).
  - compute_done.
  - compute_done.
  - apply Forall_forall. compute_done.
  - reflexivity.
  - reflexivity.
  - reflexivity.
Defined.

(** C2 fails with the ephemeral filter on: the group was edited between the
    polls, its durable record is in the changed bucket, and [save] stores
    the ephemeral bucket's record only. *)
Lemma save_skips_changed_bucket :
  let self := find_modified (etag_watcher true)
                [sg "sg-1" cfg_poll1] [sg "sg-1" cfg_edited] ∅ in
  ∃ ci, changed_items self = [ci]
    ∧ stored (datastore (save self)) ≠ []
    ∧ store_args ci ∉ stored (datastore (save self)).
Proof.
  eexists. split; [vm_compute; reflexivity|]. split; [by vm_compute|].
  intros Hin.
  assert (Forall (λ call, st_config call !! "etag" = Some "3")
            (stored (datastore
               (save (find_modified (etag_watcher true)
                        [sg "sg-1" cfg_poll1] [sg "sg-1" cfg_edited] ∅)))))
    as Hstored by compute_done.
  rewrite Forall_forall in Hstored. apply Hstored in Hin.
  vm_compute in Hin. discriminate.
Qed.

(** C3 at five throttling errors followed by a success. *)
Lemma throttling_backoff_sequence_witness :
  let retrying := wrap_aws_rate_limited_call fresh five_throttlings in
  let returned :=
    wrap_aws_rate_limited_call fresh (five_throttlings ++ [Returns "ok"]) in
  (waits retrying.1.2 = [0; 1; 2; 4; 4]
   ∧ retrying.2 = None
   ∧ rate_limit_delay retrying.1.1 = 4)
  ∧ (waits returned.1.2 = [0; 1; 2; 4; 4; 4]
     ∧ returned.2 = Some (Returns "ok")
     ∧ rate_limit_delay returned.1.1 = 0).
Proof.
  apply (throttling_backoff_sequence five_throttlings "ok" fresh).
  - reflexivity.
  - compute_done.
Defined.

(** C4 with a failure recorded for the whole account: the vanished group
    [sg-1] is not reported deleted, the new group [sg-2] is reported
    created. *)
Lemma suppressed_not_deleted_new_created_witness :
  let self' := diff_passes fresh [sg "sg-1" cfg_poll1] [sg "sg-2" cfg_poll1]
                 account_failure in
  ¬ at_location sg1_location (deleted_items self')
  ∧ at_location sg2_location (created_items self').
Proof.
  split.
  - apply (suppressed_not_deleted_new_created fresh
             [sg "sg-1" cfg_poll1] [sg "sg-2" cfg_poll1] account_failure
             sg1_location).
    + compute_done.
    + compute_done.
    + right. right. left. compute_done.
    + intros (ci & Hci & _). by apply elem_of_nil in Hci.
  - apply (suppressed_not_deleted_new_created fresh
             [sg "sg-1" cfg_poll1] [sg "sg-2" cfg_poll1] account_failure
             sg2_location).
    + compute_done.
    + compute_done.
Defined.

(** C5 fails at a location the exception map covers: the group is in both
    snapshots and only its [etag] moved, yet with a failure recorded for its
    account neither setting of [honor_ephemerals] puts a record anywhere. *)
Lemma ephemeral_change_suppressed :
  let previous := [sg "sg-1" cfg_poll1] in
  let current := [sg "sg-1" cfg_poll2] in
  dict_by_location previous !! sg1_location = Some (sg "sg-1" cfg_poll1)
  ∧ dict_by_location current !! sg1_location = Some (sg "sg-1" cfg_poll2)
  ∧ only_ephemeral_delta ["etag"] (sg "sg-1" cfg_poll1) (sg "sg-1" cfg_poll2)
  ∧ ephemeral_items
      (find_modified (etag_watcher true) previous current account_failure)
    = []
  ∧ changed_items
      (find_modified (etag_watcher false) previous current account_failure)
    = [].
Proof.
  cbn zeta. split; [compute_done|]. split; [compute_done|].
  split; [|split; compute_done].
  split; [compute_done|compute_done].
Qed.

(** C5, amended, at the same group with no failure recorded. *)
Lemma ephemeral_only_change_buckets_witness :
  let previous := [sg "sg-1" cfg_poll1] in
  let current := [sg "sg-1" cfg_poll2] in
  let honoring := find_modified (etag_watcher true) previous current ∅ in
  let plain := find_modified (etag_watcher false) previous current ∅ in
  ∃ ci, from_items (Some (sg "sg-1" cfg_poll1)) (Some (sg "sg-1" cfg_poll2))
        = Some ci
    ∧ ci ∈ ephemeral_items honoring
    ∧ ¬ at_location sg1_location (changed_items honoring)
    ∧ ci ∈ changed_items plain.
Proof.
  cbn zeta.
  destruct (ephemeral_only_change_buckets (etag_watcher true)
              [sg "sg-1" cfg_poll1] [sg "sg-1" cfg_poll2] ∅ sg1_location
              (sg "sg-1" cfg_poll1) (sg "sg-1" cfg_poll2))
    as (ci & Hci & _ & Hhonor & _).
  { compute_done. }
  { compute_done. }
  { compute_done. }
  { split; compute_done. }
  destruct (ephemeral_only_change_buckets (etag_watcher false)
              [sg "sg-1" cfg_poll1] [sg "sg-1" cfg_poll2] ∅ sg1_location
              (sg "sg-1" cfg_poll1) (sg "sg-1" cfg_poll2))
    as (ci' & Hci' & _ & _ & Hplain).
  { compute_done. }
  { compute_done. }
  { compute_done. }
  { split; compute_done. }
  assert (ci' = ci) as -> by congruence.
  destruct (Hhonor eq_refl) as [Heph Hchanged].
  exists ci. split; [done|]. split; [done|]. split.
  - apply Hchanged. intros (x & Hx & _). by apply elem_of_nil in Hx.
  - by apply Hplain.
Defined.

(** C6 fails as soon as a run reports something: a second run on the same
    watcher reports the new group a second time. *)
Lemma second_run_reports_again :
  let once := find_changes fresh [sg "sg-1" cfg_poll1] ∅ in
  let twice := find_changes once [sg "sg-1" cfg_poll1] ∅ in
  length (created_items once) = 1%nat
  ∧ length (created_items twice) = 2%nat
  ∧ buckets twice ≠ buckets once.
Proof.
  cbn zeta. split; [compute_done|]. split; [compute_done|].
  intros Heq. apply (f_equal (λ b, length b.1.1.1)) in Heq.
  vm_compute in Heq. discriminate.
Qed.

(** C7 fails on a record flagged [found_new_issue] whose [audit_issues] is
    empty: the wording sets [has_new_issue] and [has_unjustified_issue],
    the code sets no flag. *)
Lemma found_new_issue_without_audit_issues :
  found_new_issue flagged_without_issues = true
  ∧ issues_found_of [flagged_without_issues] = (false, false, false)
  ∧ issues_found_as_worded [flagged_without_issues] false false false
    = (false, true, true).
Proof. split; [|split]; reflexivity. Qed.

(** C7, amended, at a scan of three records: one without audit issues, one
    with a new issue, and one more that is never reached. *)
Lemma issues_found_flags_witness :
  let issue := mkIssue "open to 0.0.0.0/0" false in
  let quiet := sg "sg-1" cfg_poll1 in
  let flagged : FlatItem :=
    mkChangeItem "sg" "us-east-1" "a1" "sg-2" ∅ cfg_poll1 true [issue]
      [issue] [] [] true in
  let items := [quiet; flagged; quiet] in
  issues_found_of items = (true, true, true)
  ∧ issues_found_of [quiet; flagged] = issues_found_of items
  ∧ issues_found_of (quiet :: items) = issues_found_of items.
Proof.
  cbn zeta.
  pose proof (issues_found_flags
                [sg "sg-1" cfg_poll1;
                 mkChangeItem "sg" "us-east-1" "a1" "sg-2" ∅ cfg_poll1 true
                   [mkIssue "open to 0.0.0.0/0" false]
                   [mkIssue "open to 0.0.0.0/0" false] [] [] true;
                 sg "sg-1" cfg_poll1]) as (_ & Hbreak & Hskip).
  destruct (Hbreak [sg "sg-1" cfg_poll1] _ [sg "sg-1" cfg_poll1] eq_refl
              eq_refl) as [Hflags Hprefix].
  split; [exact Hflags|]. split; [exact Hprefix|].
  exact (Hskip (sg "sg-1" cfg_poll1) eq_refl).
Defined.

(** C9 at a deleted group, a created group, and nothing at all. *)
Lemma from_items_record_witness :
  from_items (Config := gmap string string) None None = None
  ∧ (∃ ci, from_items (Some (sg "sg-1" cfg_poll1)) None = Some ci
       ∧ active ci = false ∧ config ci = ∅)
  ∧ (∃ ci, from_items None (Some (sg "sg-1" cfg_poll1)) = Some ci
       ∧ active ci = true ∧ config ci = cfg_poll1).
Proof.
  split; [|split].
  - by apply (from_items_record (Config := gmap string string) None None).
  - destruct (proj2 (from_items_record (Some (sg "sg-1" cfg_poll1)) None))
      as (ci & Hci & Hactive & Hconfig & Hnew & _).
    { left. by eexists. }
    exists ci. split; [done|]. split; [|by rewrite Hconfig, Hnew].
    destruct (active ci) eqn:Ha; [|done].
    by destruct (proj1 Hactive eq_refl).
  - destruct (proj2 (from_items_record None (Some (sg "sg-1" cfg_poll1))))
      as (ci & Hci & Hactive & Hconfig & Hnew & _).
    { right. by eexists. }
    exists ci. split; [done|]. split; [|by rewrite Hconfig, Hnew].
    apply Hactive. by eexists.
Defined.

(** C10 when only the [etag] of a group moved and ephemerals are honoured:
    the ephemeral bucket has a record and [is_changed] is falsy. *)
Lemma is_changed_truthy_witness :
  let self := find_modified (etag_watcher true)
                [sg "sg-1" cfg_poll1] [sg "sg-1" cfg_poll2] ∅ in
  length (ephemeral_items self) = 1%nat
  ∧ truthy (is_changed self) = false.
Proof.
  cbn zeta. split; [compute_done|].
  apply (proj2 (is_changed_truthy _)).
  - reflexivity.
  - by vm_compute.
  - compute_done.
  - compute_done.
  - compute_done.
Defined.

(** X1 at a list whose second entry has no prefix. *)
Lemma empty_prefix_ignores_everything_witness :
  check_ignore_list (lowercase := ascii_lowercase) catch_all_ignore_list
    "sg-web" = true.
Proof.
  apply (empty_prefix_ignores_everything (lowercase := ascii_lowercase)
           catch_all_ignore_list (mkIgnoreListEntry None)).
  - apply elem_of_cons. right. apply elem_of_cons. by left.
  - by left.
Defined.

(** X4: [PROD-web] is ignored under the prefix [Prod-], and so is
    [PROD-web-1]. *)
Lemma check_ignore_list_extension_witness :
  check_ignore_list (lowercase := ascii_lowercase) prod_ignore_list
    "PROD-web" = true
  ∧ check_ignore_list (lowercase := ascii_lowercase) prod_ignore_list
      ("PROD-web" +:+ "-1") = true.
Proof.
  split; [compute_done|].
  apply (check_ignore_list_extension (lowercase := ascii_lowercase)
           prod_ignore_list "PROD-web" "-1").
  compute_done.
Defined.

(** X3: [PROD-Web] under the prefix [Prod-] and [prod-web] under the prefix
    [PROD-] get the same answer. *)
Lemma check_ignore_list_ignores_case_witness :
  check_ignore_list (lowercase := ascii_lowercase) prod_ignore_list
    "PROD-Web"
  = check_ignore_list (lowercase := ascii_lowercase)
      [mkIgnoreListEntry (Some "PROD-")] "prod-web".
Proof.
  apply (check_ignore_list_ignores_case (lowercase := ascii_lowercase)
           prod_ignore_list [mkIgnoreListEntry (Some "PROD-")]
           "PROD-Web" "prod-web").
  - compute_done.
  - constructor; [compute_done|constructor].
Defined.

(** X5 at a failure of the region of [sg-1], recorded on top of a failure
    of another account. *)
Lemma slurp_exception_covers_witness :
  locationInExceptionMap sg1_location
    (slurp_exception ["sg"; "a1"; "us-east-1"] "Timeout"
       (slurp_exception ["sg"; "a2"] "AccessDenied" ∅))
  = true.
Proof.
  apply (slurp_exception_covers sg1_location ["sg"; "a1"; "us-east-1"]).
  right. left. reflexivity.
Defined.

(** X6: a failure of the region [eu-west-1] changes nothing for [sg-1] in
    [us-east-1]. *)
Lemma slurp_exception_elsewhere_witness :
  locationInExceptionMap sg1_location
    (slurp_exception ["sg"; "a1"; "eu-west-1"] "Timeout" ∅)
  = locationInExceptionMap sg1_location ∅.
Proof.
  apply (slurp_exception_elsewhere sg1_location ["sg"; "a1"; "eu-west-1"]);
    compute_done.
Defined.

(** X7: the recorded group and the audited group differ in activity and
    audit issues, not in configuration; nothing is reported. *)
Lemma unchanged_snapshots_report_nothing_witness :
  buckets (diff_passes (etag_watcher true) [sg "sg-1" cfg_poll1]
             [sg1_audited] ∅)
  = buckets (etag_watcher true).
Proof.
  apply (unchanged_snapshots_report_nothing (etag_watcher true)
           [sg "sg-1" cfg_poll1] [sg1_audited] ∅).
  - intros loc. reflexivity.
  - intros loc prev_item curr_item
      [_ ->%list_elem_of_singleton]%dict_by_location_lookup
      [_ ->%list_elem_of_singleton]%dict_by_location_lookup.
    reflexivity.
Defined.

(** X8 at snapshots that list [sg-1] twice. *)
Lemma one_record_per_location_witness :
  let previous := [sg "sg-1" cfg_poll1; sg "sg-1" cfg_poll2;
                   sg "sg-2" cfg_poll1] in
  let current := [sg "sg-1" cfg_edited; sg "sg-1" cfg_poll2;
                  sg "sg-3" cfg_poll1; sg "sg-3" cfg_poll2] in
  let self' := diff_passes (etag_watcher true) previous current ∅ in
  NoDup (location <$> created_items self')
  ∧ NoDup (location <$> deleted_items self')
  ∧ NoDup (location <$> changed_items self')
  ∧ NoDup (location <$> ephemeral_items self').
Proof.
  apply (one_record_per_location (etag_watcher true)). reflexivity.
Defined.

(** X9 at a new group and a vanished one. *)
Lemma reports_are_exclusive_witness :
  let self' := diff_passes fresh [sg "sg-1" cfg_poll1] [sg "sg-2" cfg_poll1]
                 ∅ in
  (¬ at_location sg2_location (deleted_items self')
   ∧ ¬ at_location sg2_location (changed_items self')
   ∧ ¬ at_location sg2_location (ephemeral_items self'))
  ∧ (¬ at_location sg1_location (changed_items self')
     ∧ ¬ at_location sg1_location (ephemeral_items self')).
Proof.
  split.
  - apply (proj1 (reports_are_exclusive fresh [sg "sg-1" cfg_poll1]
                    [sg "sg-2" cfg_poll1] ∅ sg2_location eq_refl)).
    apply at_location_created_after; compute_done.
  - apply (proj2 (reports_are_exclusive fresh [sg "sg-1" cfg_poll1]
                    [sg "sg-2" cfg_poll1] ∅ sg1_location eq_refl)).
    apply at_location_deleted_after; compute_done.
Defined.

(** X10 at one vanished, one new and one edited group. *)
Lemma reported_records_shape_witness :
  let previous := [sg1_audited; sg "sg-2" cfg_poll1] in
  let current := [sg "sg-2" cfg_edited; sg "sg-3" cfg_poll1] in
  let self' := diff_passes (etag_watcher true) previous current ∅ in
  Forall (λ ci, active ci = false ∧ new_config ci = ∅) (deleted_items self')
  ∧ Forall (λ ci, active ci = true ∧ old_config ci = ∅)
      (created_items self')
  ∧ Forall (λ ci, active ci = true)
      (changed_items self' ++ ephemeral_items self')
  ∧ Forall (λ ci, found_new_issue ci = false
                  ∧ confirmed_new_issues ci = []
                  ∧ confirmed_fixed_issues ci = []
                  ∧ confirmed_existing_issues ci = [])
      (created_items self' ++ deleted_items self' ++ changed_items self'
       ++ ephemeral_items self').
Proof.
  exact (reported_records_shape (etag_watcher true)
           [sg1_audited; sg "sg-2" cfg_poll1]
           [sg "sg-2" cfg_edited; sg "sg-3" cfg_poll1] ∅ eq_refl).
Defined.

(** X11 at a current snapshot that lists the new group [sg-2] twice. *)
Lemma last_item_at_location_wins_witness :
  let ci := ChangeItem_init "sg" "us-east-1" "a1" "sg-2" ∅ cfg_poll2 true []
  in
  ci ∈ created_items
         (find_new fresh [sg "sg-1" cfg_poll1]
            ([sg "sg-2" cfg_poll1] ++ [sg "sg-2" cfg_poll2]))
  ∧ location ci = location (sg "sg-2" cfg_poll2).
Proof.
  apply (proj2 (last_item_at_location_wins fresh [sg "sg-1" cfg_poll1]
                  [sg "sg-2" cfg_poll1] (sg "sg-2" cfg_poll2)
                  (ChangeItem_init "sg" "us-east-1" "a1" "sg-2" ∅ cfg_poll2
                     true [])
                  eq_refl ltac:(compute_done))).
  reflexivity.
Defined.

(** X12 at the edited group of an account whose slurp failed. *)
Lemma covered_location_not_compared_witness :
  let self' := find_modified (etag_watcher true) [sg "sg-1" cfg_poll1]
                 [sg "sg-1" cfg_edited] account_failure in
  ¬ at_location sg1_location (changed_items self')
  ∧ ¬ at_location sg1_location (ephemeral_items self').
Proof.
  apply (covered_location_not_compared (etag_watcher true)
           [sg "sg-1" cfg_poll1] [sg "sg-1" cfg_edited] account_failure
           sg1_location).
  - right. right. left. compute_done.
  - intros (ci & Hci & _). by apply elem_of_nil in Hci.
  - intros (ci & Hci & _). by apply elem_of_nil in Hci.
Defined.

(** X13 at a watcher that honours ephemerals without declaring a path and
    whose changed bucket already holds a record. *)
Lemma honoring_without_paths_witness :
  let self := set_changed_items (set_ephemerals fresh true []) [sg2_flagged]
  in
  let self' := find_modified self [sg "sg-1" cfg_poll1]
                 [sg "sg-1" cfg_edited] ∅ in
  ∃ records,
    changed_items self' = changed_items self ++ records
    ∧ ephemeral_items self' = ephemeral_items self ++ records.
Proof.
  intros self. subst self.
  apply (honoring_without_paths
           (set_changed_items (set_ephemerals fresh true []) [sg2_flagged])
           [sg "sg-1" cfg_poll1] [sg "sg-1" cfg_edited] ∅); reflexivity.
Defined.

(** X15 at the edited group: the changed record has lost its [etag], the
    ephemeral record has kept it. *)
Lemma durable_change_buckets_witness :
  let self' := find_modified (etag_watcher true) [sg "sg-1" cfg_poll1]
                 [sg "sg-1" cfg_edited] ∅ in
  (∃ ci, ci ∈ changed_items self' ∧ location ci = sg1_location
     ∧ old_config ci = {["rules" := "22"]}
     ∧ new_config ci = {["rules" := "22,80"]})
  ∧ (∃ ci, ci ∈ ephemeral_items self' ∧ location ci = sg1_location
       ∧ old_config ci = cfg_poll1 ∧ new_config ci = cfg_edited).
Proof.
  destruct (durable_change_buckets (etag_watcher true) [sg "sg-1" cfg_poll1]
              [sg "sg-1" cfg_edited] ∅ sg1_location (sg "sg-1" cfg_poll1)
              (sg "sg-1" cfg_edited)) as [Hchanged Hephemeral].
  - compute_done.
  - compute_done.
  - compute_done.
  - reflexivity.
  - compute_done.
  - split.
    + destruct Hchanged as (ci & Hci & Hloc & Hold & Hnew).
      exists ci. split; [exact Hci|]. split; [exact Hloc|].
      split; [rewrite Hold|rewrite Hnew]; compute_done.
    + apply Hephemeral. compute_done.
Defined.

(** X17 at a watcher whose datastore is empty. *)
Lemma first_run_creates_everything_witness :
  let self' := find_changes fresh [sg "sg-1" cfg_poll1; sg "sg-2" cfg_poll1]
                 account_failure in
  deleted_items self' = [] ∧ changed_items self' = []
  ∧ ephemeral_items self' = []
  ∧ at_location sg2_location (created_items self').
Proof.
  destruct (first_run_creates_everything fresh
              [sg "sg-1" cfg_poll1; sg "sg-2" cfg_poll1] account_failure
              sg2_location) as (Hd & Hm & He & Hc).
  - intros account _. reflexivity.
  - split; [exact Hd|]. split; [exact Hm|]. split; [exact He|].
    apply Hc. compute_done.
Defined.

(** X19 at a record with a new issue scanned before or after another
    record: in the first order the scan stops before the other record, in
    the second it scans it first. *)
Lemma issues_found_any_order_witness :
  raises_new_issue sg2_flagged = true
  ∧ issues_found_of [sg2_flagged; sg1_audited]
    = issues_found_of [sg1_audited; sg2_flagged].
Proof.
  split; [reflexivity|].
  apply (issues_found_any_order [sg2_flagged; sg1_audited]
           [sg1_audited; sg2_flagged]).
  apply perm_swap.
Defined.

(** X22 at the vanished group [sg-1]. *)
Lemma deleted_resource_stored_inactive_witness :
  mkStoreCall "sg" "us-east-1" "a1" "sg-1" false ∅
    [mkIssue "open to 0.0.0.0/0" false]
  ∈ stored (datastore
              (save (diff_passes fresh [sg1_audited] [sg "sg-2" cfg_poll1]
                       ∅))).
Proof.
  refine (deleted_resource_stored_inactive fresh [sg1_audited]
            [sg "sg-2" cfg_poll1] ∅ sg1_audited _ _ _); compute_done.
Defined.

(** X23: after the five throttling errors an access error ends the call,
    whatever would have come next. *)
Lemma first_other_outcome_decides_witness :
  let denied := Raises (ClientError "AccessDenied") in
  wrap_aws_rate_limited_call fresh
    (five_throttlings ++ denied :: [Returns "ok"])
  = wrap_aws_rate_limited_call fresh (five_throttlings ++ [denied])
  ∧ (wrap_aws_rate_limited_call fresh (five_throttlings ++ [denied])).2
    = Some denied.
Proof.
  apply (first_other_outcome_decides five_throttlings [Returns "ok"]
           (Raises (ClientError "AccessDenied")) fresh); compute_done.
Defined.

(** X24: two throttling errors, then an access error; the delay stays at 2
    and the next call sleeps 2 before its first attempt. *)
Lemma other_error_keeps_delay_witness :
  let failures : list (outcome string) :=
    [Raises (ClientError "Throttling");
     Raises (BotoServerError "Throttling")] in
  let raised :=
    wrap_aws_rate_limited_call fresh
      (failures ++ [Raises (ClientError "AccessDenied")]) in
  raised.2 = Some (Raises (ClientError "AccessDenied"))
  ∧ rate_limit_delay raised.1.1 = 2
  ∧ waits raised.1.2 = [0; 1; 2]
  ∧ waits (wrap_aws_rate_limited_call raised.1.1 [Returns "ok"]).1.2 = [2].
Proof.
  apply (other_error_keeps_delay
           [Raises (ClientError "Throttling");
            Raises (BotoServerError "Throttling")]
           (ClientError "AccessDenied") (Returns "ok") fresh); compute_done.
Defined.

(** X25 at the five throttling errors followed by a success. *)
Lemma delay_stays_bounded_witness :
  let r := wrap_aws_rate_limited_call fresh
             (five_throttlings ++ [Returns "ok"]) in
  backoff_delay (rate_limit_delay r.1.1)
  ∧ Forall (λ seconds, 0 < seconds ≤ 4) (sleeps r.1.2)
  ∧ (length (calls r.1.2) ≤ 6)%nat.
Proof.
  apply (delay_stays_bounded (five_throttlings ++ [Returns "ok"]) fresh).
  by left.
Defined.

(** X26 at three revisions inserted out of order. *)
Lemma get_latest_config_greatest_witness :
  get_latest_config Z.le revisions = Some "third"
  ∧ (∃ latest, revisions !! latest = Some "third"
       ∧ ∀ k, is_Some (revisions !! k) → k ≤ latest)
  ∧ get_latest_config Z.le (∅ : gmap Z string) = None.
Proof.
  split; [compute_done|]. split.
  - apply (proj2 (get_latest_config_greatest Z.le revisions)). compute_done.
  - by apply (proj1 (get_latest_config_greatest Z.le (∅ : gmap Z string))).
Defined.
